(** * qc_grader.util: gate-cost estimation with a memoizing cache

    A shallow embedding of [src/qc_grader/util.py].

    - Python objects of the quantum SDK (gates, instructions) are references
      into an object graph; their attributes ([name], [num_qubits],
      [definition]) and their class are read through the [Sdk] interface.
      The graph is not assumed finite or acyclic: [definition] is a property
      that an SDK class may compute on demand.
    - Python [int] is unbounded: [Z].
    - The cache of the [cached] decorator is a dict attached to the decorated
      function object; it is the [cache] field of the interpreter [state], a
      [gmap] from [(name, num_qubits)] keys to costs.
    - Exceptions and state are threaded by a small state-and-error monad. *)

From Stdlib Require Import ZArith Lia.
From stdpp Require Import base option list strings gmap fin_maps.

Set Default Proof Using "Type".

(** ** Results, exceptions and the state-and-error monad *)

(** The exceptions (instances of Python's [Exception]) that the modelled code
    raises or handles. Execution is single-threaded and synchronous, with no
    cancellation: asynchronous interrupts are outside the model. *)
Inductive exn : Type :=
  | AttributeError (attr : string)   (* 'NoneType' object has no attribute attr *)
  | KeyError (key : string)
  | TypeError
  | IBMQProviderError
  | OtherException (cls : string).

(** Why a recursive computation stops without a value: an exception raised by
    a statement of the program, or the recursion budget is exhausted. The
    budget is the nesting depth that the interpreter allows, fixed for a run
    and not chosen by the program: CPython raises [RecursionError] when it is
    exceeded. No statement of the module catches it. *)
Inductive stop : Type :=
  | Raise (e : exn)
  | OutOfFuel.

Inductive res (E A : Type) : Type :=
  | Ret (v : A)
  | Err (e : E).
Arguments Ret {E A} v.
Arguments Err {E A} e.

Definition M (S E A : Type) : Type := S → res E A * S.

Definition ret {S E A} (v : A) : M S E A := λ s, (Ret v, s).

Definition raise {S E A} (e : E) : M S E A := λ s, (Err e, s).

Definition bind {S E A B} (m : M S E A) (k : A → M S E B) : M S E B :=
  λ s, match m s with
       | (Ret v, s') => k v s'
       | (Err e, s') => (Err e, s')
       end.

Definition gets {S E A} (f : S → A) : M S E A := λ s, (Ret (f s), s).

Definition modify {S E} (f : S → S) : M S E unit := λ s, (Ret tt, f s).

(** [try: m except Exception as e: h e] *)
Definition try_except {S E A} (m : M S E A) (h : E → M S E A) : M S E A :=
  λ s, match m s with
       | (Ret v, s') => (Ret v, s')
       | (Err e, s') => h e s'
       end.

Declare Scope py_scope.
Delimit Scope py_scope with py.
Notation "x <- m ;; k" := (bind m (λ x, k))
  (at level 100, m at next level, right associativity) : py_scope.
Notation "m ;;; k" := (bind m (λ _, k))
  (at level 100, right associativity) : py_scope.
Local Open Scope py_scope.

(** ** The SDK's object model *)

(** The classes the module tests with [isinstance], with the part of the SDK's
    hierarchy that relates them: [CXGate] is a [ControlledGate], the primitive
    rotations are [Gate]s, every [Gate] is an [Instruction]; [Barrier] and
    [Measure] are instructions that are not gates. An instance of any other
    SDK or user class is classified by its nearest ancestor among these. *)
Inductive pyclass : Type :=
  | Instruction | Gate | ControlledGate | UGate | U3Gate | CXGate
  | Barrier | Measure.

Global Instance pyclass_eq_dec : EqDecision pyclass.
Proof. solve_decision. Defined.

Definition base_class (c : pyclass) : option pyclass :=
  match c with
  | Instruction => None
  | Gate | Barrier | Measure => Some Instruction
  | ControlledGate | UGate | U3Gate => Some Gate
  | CXGate => Some ControlledGate
  end.

(** [issubclass c d]: [d] is [c] or one of its ancestors (the hierarchy has
    depth three). *)
Fixpoint issubclass_aux (depth : nat) (c d : pyclass) : bool :=
  bool_decide (c = d) ||
  match depth, base_class c with
  | S n, Some b => issubclass_aux n b d
  | _, _ => false
  end.

Definition issubclass : pyclass → pyclass → bool := issubclass_aux 3.

Definition qargs : Type := list nat.
Definition cargs : Type := list nat.

(** [QuantumCircuit.data]: the instruction list, entries
    [(operation, qubits, clbits)]. *)
Record QuantumCircuit (obj : Type) : Type := mkCircuit {
  data : list (obj * qargs * cargs)
}.
Arguments mkCircuit {obj} data.
Arguments data {obj} q.

(** What the module reads of an SDK object. [definition] is [None] for an
    object without decomposition. *)
Class Sdk (obj : Type) : Type := {
  class_of : obj → pyclass;
  name : obj → string;
  num_qubits : obj → Z;
  definition : obj → option (QuantumCircuit obj)
}.

Definition isinstance `{Sdk obj} (o : obj) (c : pyclass) : bool :=
  issubclass (class_of o) c.

(** The operations of an instruction list: [g for g, _, _ in circuit.data]. *)
Definition operations {obj} (circuit : QuantumCircuit obj) : list obj :=
  map (λ '(g, _, _), g) (data circuit).

(** ** Interpreter state *)

Abbreviation cache_t := (gmap (string * Z) Z).

(** [cache] is [gate_cost.__cache]; [stdout] is what has been printed.
    [calls] is a ghost counter, read by no statement of the program: the
    number of times the undecorated body of [gate_cost] has been entered. *)
Record state : Type := mkState {
  cache : cache_t;
  calls : nat;
  stdout : list string
}.

Definition initial_state : state :=
  {| cache := ∅; calls := 0; stdout := [] |}.

Definition set_cache (f : cache_t → cache_t) (s : state) : state :=
  {| cache := f (cache s); calls := calls s; stdout := stdout s |}.

Definition tick (s : state) : state :=
  {| cache := cache s; calls := S (calls s); stdout := stdout s |}.

Definition printed (line : string) (s : state) : state :=
  {| cache := cache s; calls := calls s; stdout := stdout s ++ [line] |}.

Definition print (line : string) : M state stop unit :=
  modify (printed line).

(** Two outcomes that agree on the result and on the cache. *)
Definition same_outcome (x y : res stop Z * state) : Prop :=
  x.1 = y.1 ∧ cache x.2 = cache y.2.

(** ** The [cached] decorator (util.py, lines 72-82) *)

(** [f.__cache[key]]: subscripting a dict raises [KeyError] on a missing key. *)
Definition cache_getitem (key : string * Z) : M state stop Z :=
  λ s, match cache s !! key with
       | Some v => (Ret v, s)
       | None => (Err (Raise (KeyError (fst key))), s)
       end.

Definition cached {A : Type} (key_function : A → string * Z)
    (f : A → M state stop Z) : A → M state stop Z :=
  λ args,
    let key := key_function args in
    present <- gets (λ s, bool_decide (is_Some (cache s !! key))) ;;
    (if negb present
     then v <- f args ;; modify (set_cache (<[key := v]>))
     else ret tt) ;;;
    cache_getitem key.

(** Ghost instrumentation of a test double: count the entries into [f]. *)
Definition counted {A B : Type} (f : A → M state stop B) : A → M state stop B :=
  λ args s, f args (tick s).

(** ** [gate_key], [gate_cost], [compute_cost], [has_cx] (lines 85-106) *)

Section GateCost.
Context `{Sdk obj}.

Definition gate_key (gate : obj) : string * Z :=
  (name gate, num_qubits gate).

(** [gate.definition.data]: attribute access on [None] raises. *)
Definition definition_data (gate : obj) : M state stop (list obj) :=
  match definition gate with
  | Some circuit => ret (operations circuit)
  | None => raise (Raise (AttributeError "data"))
  end.

(** [sum(map(f, gs))]: the calls are made left to right, each added to the
    running total, which starts at 0; an exception ends the iteration. *)
Fixpoint sum_map (f : obj → M state stop Z) (gs : list obj) (total : Z)
    : M state stop Z :=
  match gs with
  | [] => ret total
  | g :: gs' => v <- f g ;; sum_map f gs' (total + v)%Z
  end.

(** The undecorated function of lines 90-97. The name [gate_cost] in its
    last line is looked up at call time and is bound to the decorated
    function: it is the parameter [gate_cost] here. *)
Definition gate_cost_body (gate_cost : obj → M state stop Z) (gate : obj)
    : M state stop Z :=
  if isinstance gate UGate then ret 1%Z
  else if isinstance gate U3Gate then ret 1%Z
  else if isinstance gate CXGate then ret 10%Z
  else gs <- definition_data gate ;; sum_map gate_cost gs 0%Z.

(** The decorated [gate_cost]. [fuel] bounds the nesting depth of calls to
    the undecorated body; a cache hit needs none. *)
Fixpoint gate_cost (fuel : nat) : obj → M state stop Z :=
  cached gate_key
    (λ gate,
       match fuel with
       | O => raise OutOfFuel
       | S n => counted (gate_cost_body (gate_cost n)) gate
       end).

(** The function that the decorator wraps, at a recursion budget. *)
Definition gate_cost_f (fuel : nat) : obj → M state stop Z :=
  λ gate,
    match fuel with
    | O => raise OutOfFuel
    | S n => counted (gate_cost_body (gate_cost n)) gate
    end.

Definition compute_cost (fuel : nat) (circuit : QuantumCircuit obj)
    : M state stop Z :=
  print "Computing cost..." ;;;
  sum_map (gate_cost fuel)
    (List.filter (λ g, isinstance g Gate) (operations circuit)) 0%Z.

Definition has_cx (circuit : QuantumCircuit obj) : bool :=
  existsb (λ g, isinstance g CXGate) (operations circuit).

(** ** Sequences of calls *)

(** [[f(g) for g in gs]]: the values of the calls, made left to right. *)
Fixpoint map_calls (f : obj → M state stop Z) (gs : list obj)
    : M state stop (list Z) :=
  match gs with
  | [] => ret []
  | g :: gs' => v <- f g ;; vs <- map_calls f gs' ;; ret (v :: vs)
  end.

Definition sum_list (vs : list Z) : Z := foldr Z.add 0%Z vs.

(** The state after a series of top-level calls [gate_cost(g)], each with its
    own budget, whether they return or raise. *)
Fixpoint run_calls (later : list (nat * obj)) (s : state) : state :=
  match later with
  | [] => s
  | (fuel, g) :: later' => run_calls later' (gate_cost fuel g s).2
  end.

(** ** The decomposition relation and the cost without a cache *)

Definition primitive (gate : obj) : bool :=
  isinstance gate UGate || isinstance gate U3Gate || isinstance gate CXGate.

(** [sub_gate g' g]: the body of [gate_cost], run on [g], calls
    [gate_cost(g')]. *)
Definition sub_gate (g' g : obj) : Prop :=
  primitive g = false ∧
  ∃ circuit, definition g = Some circuit ∧ g' ∈ operations circuit.

(** The three-branch algorithm of the specification, with no cache: 1 for a
    single-qubit rotation primitive, 10 for the two-qubit primitive, otherwise
    the sum over the decomposition. [None]: no cost within [depth] levels, or
    a gate that is neither primitive nor decomposed. *)
Fixpoint three_branch_cost (depth : nat) (gate : obj) : option Z :=
  match depth with
  | O => None
  | S d =>
      if isinstance gate UGate || isinstance gate U3Gate then Some 1%Z
      else if isinstance gate CXGate then Some 10%Z
      else
        circuit ← definition gate;
        vs ← mapM (three_branch_cost d) (operations circuit);
        Some (sum_list vs)
  end.

(** The source's assumption on keys: gates with one [(name, num_qubits)] have
    one cost. *)
Definition coherent : Prop :=
  ∀ (g g' : obj) d d' v v',
    gate_key g = gate_key g' →
    three_branch_cost d g = Some v →
    three_branch_cost d' g' = Some v' →
    v = v'.

(** A cache that holds no cost other than the three-branch one. *)
Definition sound (c : cache_t) : Prop :=
  ∀ (g : obj) d v w,
    c !! gate_key g = Some w →
    three_branch_cost d g = Some v →
    w = v.


(** The cost of a gate that has one within [depth] levels. *)
Definition cost_of (depth : nat) (gate : obj) : Z :=
  default 0%Z (three_branch_cost depth gate).

(** The gates of a circuit: the operations that [compute_cost] sums over. *)
Definition gates_of (circuit : QuantumCircuit obj) : list obj :=
  List.filter (λ g, isinstance g Gate) (operations circuit).

(** A circuit with its barrier and measurement directives removed. *)
Definition without_directives (circuit : QuantumCircuit obj)
    : QuantumCircuit obj :=
  mkCircuit (List.filter (λ '(g, _, _), isinstance g Gate) (data circuit)).

(** A gate that the body of [gate_cost] can evaluate: a primitive, or a gate
    with a definition. *)
Definition decomposable (gate : obj) : Prop :=
  primitive gate = true ∨ is_Some (definition gate).

(** [f'] agrees with [f] wherever [f] does not run out of fuel. *)
Definition extends_calls (f f' : obj → M state stop Z) : Prop :=
  ∀ g s r s', f g s = (r, s') → r ≠ Err OutOfFuel → f' g s = (r, s').

(** ** Further notions used to state properties of the cost functions *)

(** A cache all of whose costs are non-negative. *)
Definition nonneg_cache (c : cache_t) : Prop :=
  map_Forall (λ _ v, (0 ≤ v)%Z) c.

(** The instruction list of [first] followed by that of [second]
    ([QuantumCircuit.compose] on the same qubits). *)
Definition concat (first second : QuantumCircuit obj) : QuantumCircuit obj :=
  mkCircuit (data first ++ data second).


(** The cost that a cache holds for a gate, 0 when it holds none. *)
Definition cached_cost (c : cache_t) (gate : obj) : Z :=
  default 0%Z (c !! gate_key gate).

(** [decomposes_within budget gate]: decomposing [gate] down to primitives
    and gates without definition takes fewer than [budget] nested calls of
    the body of [gate_cost]. *)
Fixpoint decomposes_within (budget : nat) (gate : obj) : Prop :=
  match budget with
  | O => False
  | S n => ∀ g', sub_gate g' gate → decomposes_within n g'
  end.

End GateCost.

(** ** A concrete object graph: finite gate trees *)

#[warnings="-register-all"]
Inductive tree : Type :=
  | Node (c : pyclass) (nm : string) (nq : Z)
         (def : option (list (tree * qargs * cargs))).

Global Instance tree_sdk : Sdk tree := {|
  class_of := λ t, match t with Node c _ _ _ => c end;
  name := λ t, match t with Node _ nm _ _ => nm end;
  num_qubits := λ t, match t with Node _ _ nq _ => nq end;
  definition := λ t, match t with Node _ _ _ def => mkCircuit <$> def end
|}.

(** An entry of an instruction list: [g] applied to qubits [qs]. *)
Definition on (qs : list nat) (g : tree) : tree * qargs * cargs := (g, qs, []).

(** The SDK's primitives, a barrier and a measurement. *)
Definition u_gate : tree := Node UGate "u" 1 None.
Definition u3_gate : tree := Node U3Gate "u3" 1 None.
Definition cx_gate : tree := Node CXGate "cx" 2 None.
Definition barrier : tree := Node Barrier "barrier" 2 None.
Definition measure : tree := Node Measure "measure" 1 None.

(** A gate made from a circuit ([QuantumCircuit.to_gate]): an instance of
    [Gate] with the circuit's name and width, defined by its instructions. *)
Definition gate (nm : string) (nq : Z) (entries : list (tree * qargs * cargs))
    : tree :=
  Node Gate nm nq (Some entries).

(** Gates built by a user. Two gates named "pair" on two qubits, one of two
    [u3] rotations and one of three [cx]; two gates named "u" on one qubit,
    which is the key of the SDK's [UGate]; a gate of two rotations and a
    [cx]; a gate with an empty definition; gates without definition. *)
Definition two_u3 : tree :=
  gate "pair" 2 [on [0] u3_gate; on [1] u3_gate].
Definition three_cx : tree :=
  gate "pair" 2 [on [0; 1] cx_gate; on [1; 0] cx_gate; on [0; 1] cx_gate].
Definition double_u : tree :=
  gate "u" 1 [on [0] u_gate; on [0] u_gate].
Definition custom_u : tree :=
  gate "u" 1 [on [0] u3_gate; on [0] u3_gate].
Definition u_u_cx : tree :=
  gate "entangle" 2 [on [0] u_gate; on [1] u_gate; on [0; 1] cx_gate].
Definition idle : tree := gate "idle" 1 [].
Definition opaque_pair : tree := Node Gate "pair" 2 None.
Definition opaque_pair_3 : tree := Node Gate "pair" 3 None.
Definition opaque : tree := Node Gate "oracle" 3 None.

(** A gate whose decomposition reaches, two levels down, a gate without
    definition. *)
Definition broken_inside : tree :=
  gate "outer" 3
    [on [0] u_gate; on [0; 1; 2] (gate "inner" 3 [on [0; 1; 2] opaque])].

(** A chain of user gates, each defined by the one below it, down to a
    [cx]: [chain n] has [n] levels above the primitive. *)
Fixpoint chain (n : nat) : tree :=
  match n with
  | O => cx_gate
  | S m => gate "chain" (Z.of_nat m + 3) [on [0; 1] (chain m)]
  end.

(** Circuits over these gates. *)
Definition rotations : QuantumCircuit tree :=
  mkCircuit [on [0] u_gate; on [1] u3_gate; on [0] u_gate].

Definition bell : QuantumCircuit tree :=
  mkCircuit [on [0] u_gate; on [0; 1] cx_gate; (measure, [0], [0])].

(** The circuit [bell] with other names and qubits, and a circuit of two
    user gates. *)
Definition bell_renamed : QuantumCircuit tree :=
  mkCircuit [on [1] (Node UGate "rot" 1 None);
             on [1; 0] (Node CXGate "cnot" 2 None);
             (Node Measure "readout" 1 None, [1], [1])].

Definition user_gates : QuantumCircuit tree :=
  mkCircuit [on [0; 1] three_cx; on [0] custom_u].

Definition only_directives : QuantumCircuit tree :=
  mkCircuit [(barrier, [0; 1], []); (measure, [0], [0]); (measure, [1], [1])].

Definition pair_then_swap : QuantumCircuit tree :=
  mkCircuit [on [0; 1] two_u3; (barrier, [0; 1], []); on [0; 1] three_cx].

Definition swap_then_pair : QuantumCircuit tree :=
  mkCircuit [on [0; 1] three_cx; (barrier, [0; 1], []); on [0; 1] two_u3].

(** ** A second object graph: gates of the SDK's standard library

    Names and arities are the ones the SDK's constructors fix; [swap] is
    defined by three [cx], [x] by one [u3]. *)

Inductive stdgate : Type :=
  | std_u | std_u3 | std_cx | std_swap | std_x | std_barrier | std_measure.

Global Instance stdgate_eq_dec : EqDecision stdgate.
Proof. solve_decision. Defined.

Global Instance stdgate_sdk : Sdk stdgate := {|
  class_of := λ g,
    match g with
    | std_u => UGate | std_u3 => U3Gate | std_cx => CXGate
    | std_swap | std_x => Gate
    | std_barrier => Barrier | std_measure => Measure
    end;
  name := λ g,
    match g with
    | std_u => "u" | std_u3 => "u3" | std_cx => "cx" | std_swap => "swap"
    | std_x => "x" | std_barrier => "barrier" | std_measure => "measure"
    end;
  num_qubits := λ g,
    match g with
    | std_cx | std_swap | std_barrier => 2%Z
    | _ => 1%Z
    end;
  definition := λ g,
    match g with
    | std_swap =>
        Some (mkCircuit [(std_cx, [0; 1], []); (std_cx, [1; 0], []);
                         (std_cx, [0; 1], [])])
    | std_x => Some (mkCircuit [(std_u3, [0], [])])
    | _ => None
    end
|}.

(** A circuit over the standard gates. *)
Definition teleport : QuantumCircuit stdgate :=
  mkCircuit [(std_x, [0], []); (std_barrier, [0; 1], []);
             (std_swap, [0; 1], []); (std_cx, [0; 1], []);
             (std_measure, [0], [0])].

Definition std_rotations : QuantumCircuit stdgate :=
  mkCircuit [(std_u, [0], []); (std_x, [1], []); (std_u3, [0], [])].

(** ** A third object graph: a gate class whose definition contains an
    instance of itself *)

Inductive loop_gate : Type := the_loop.

Global Instance loop_sdk : Sdk loop_gate := {|
  class_of := λ _, Gate;
  name := λ _, "loop";
  num_qubits := λ _, 1%Z;
  definition := λ _, Some (mkCircuit [(the_loop, [0], [])])
|}.

(** The height of a finite gate tree. *)
Fixpoint tree_height (t : tree) : nat :=
  match t with
  | Node _ _ _ None => 0
  | Node _ _ _ (Some entries) =>
      S ((fix heights (l : list (tree * qargs * cargs)) : nat :=
            match l with
            | [] => 0
            | (g, _, _) :: l' => tree_height g `max` heights l'
            end) entries)
  end.

(** ** The cloud service and the job utilities (util.py, lines 17-69) *)

(** Python values that cross the module's boundary: JSON-like responses of
    the API client and the tuples the utilities return. *)
#[warnings="-register-all"]
Inductive pyval : Type :=
  | PyNone
  | PyBool (b : bool)
  | PyInt (z : Z)
  | PyStr (s : string)
  | PyTuple (items : list pyval)
  | PyDict (items : list (string * pyval)).

(** The job argument of [get_job_urls]: [Union[str, IBMQJob]]. *)
Inductive job_ref (job : Type) : Type :=
  | JobId (job_id : string)
  | JobObject (j : job).
Arguments JobId {job} job_id.
Arguments JobObject {job} j.

(** The calls into the SDK and the cloud API client, over the state of the
    outside world: each returns or raises.
    - [IBMQ_get_provider], [IBMQ_load_account]: the [IBMQ] account object;
    - [backends_retrieve_job p job_id]: [p.backends.retrieve_job(job_id)];
    - [job_job_id j]: [j.job_id()];
    - [api_download_url p job_id]:
      [p._api_client.account_api.job(job_id).download_url()], and likewise
      [api_result_url];
    - the level of the logger 'qiskit.providers.ibmq' and the filters of the
      [warnings] module. *)
Class Cloud (world provider job : Type) : Type := {
  IBMQ_get_provider : M world exn provider;
  IBMQ_load_account : M world exn provider;
  backends_retrieve_job : provider → string → M world exn job;
  job_job_id : job → M world exn string;
  api_download_url : provider → string → M world exn pyval;
  api_result_url : provider → string → M world exn pyval;
  logger_level : world → Z;
  logger_setLevel : Z → world → world;
  warnings_filters : world → list string;
  warnings_restore : list string → world → world;
  warnings_simplefilter : string → world → world
}.

(** [logging.ERROR] *)
Definition logging_ERROR : Z := 40.

(** [v[key]] *)
Definition getitem {world} (v : pyval) (key : string) : M world exn pyval :=
  match v with
  | PyDict items =>
      match list_find (λ kv, kv.1 = key) items with
      | Some (_, (_, x)) => ret x
      | None => raise (KeyError key)
      end
  | _ => raise TypeError
  end.

Section Jobs.
Context `{Cloud world provider job}.

(** [with warnings.catch_warnings(): body]: the filters are restored on the
    way out, whether [body] returns or raises. *)
Definition with_catch_warnings {A} (body : M world exn A) : M world exn A :=
  λ w,
    let saved := warnings_filters w in
    let '(r, w') := body w in
    (r, warnings_restore saved w').

Definition get_provider : M world exn provider :=
  with_catch_warnings
    (modify (warnings_simplefilter "ignore") ;;;
     current_level <- gets logger_level ;;
     modify (logger_setLevel logging_ERROR) ;;;
     provider <- try_except IBMQ_get_provider
                   (λ e, match e with
                         | IBMQProviderError => IBMQ_load_account
                         | _ => raise e
                         end) ;;
     modify (logger_setLevel current_level) ;;;
     ret provider).

(** The [try] block of [get_job]. *)
Definition get_job_try (job_id : string) : M world exn (option job) :=
  provider <- get_provider ;;
  job <- backends_retrieve_job provider job_id ;;
  ret (Some job).

(** [except Exception: pass], then [return None]. *)
Definition get_job (job_id : string) : M world exn (option job) :=
  try_except (get_job_try job_id) (λ _, ret None).

(** The [try] block of [get_job_urls]. *)
Definition get_job_urls_try (job : job_ref job) : M world exn pyval :=
  job_id <- match job with
            | JobObject j => job_job_id j
            | JobId job_id => ret job_id
            end ;;
  provider <- get_provider ;;
  response <- api_download_url provider job_id ;;
  download_url <- getitem response "url" ;;
  provider' <- get_provider ;;
  response' <- api_result_url provider' job_id ;;
  result_url <- getitem response' "url" ;;
  ret (PyTuple [download_url; result_url]).

Definition get_job_urls (job : job_ref job) : M world exn pyval :=
  try_except (get_job_urls_try job) (λ _, ret (PyTuple [PyNone; PyNone])).

End Jobs.

(** What the logging and warnings modules guarantee, and what the SDK's
    account calls leave alone: a level that is set is the level read; the
    filters restored are the filters read; neither module touches the other's
    state; [IBMQ.get_provider] and [IBMQ.load_account] do not change the
    logger's level. *)
Class CloudLaws `(Cloud world provider job) : Prop := {
  level_setLevel : ∀ l w, logger_level (logger_setLevel l w) = l;
  level_restore : ∀ fs w, logger_level (warnings_restore fs w) = logger_level w;
  level_simplefilter :
    ∀ a w, logger_level (warnings_simplefilter a w) = logger_level w;
  filters_restore : ∀ fs w, warnings_filters (warnings_restore fs w) = fs;
  level_get_provider : ∀ w, logger_level (IBMQ_get_provider w).2 = logger_level w;
  level_load_account : ∀ w, logger_level (IBMQ_load_account w).2 = logger_level w
}.

(** The declared return type of [get_job_urls]:
    [Tuple[bool, Optional[str], Optional[str]]]. *)
Definition is_optional_str (v : pyval) : bool :=
  match v with
  | PyNone | PyStr _ => true
  | _ => false
  end.

Definition has_declared_type (v : pyval) : bool :=
  match v with
  | PyTuple [PyBool _; a; b] => is_optional_str a && is_optional_str b
  | _ => false
  end.

(** A concrete outside world: an account that may be loaded, saved
    credentials that may exist, and one known job. *)
Record demo_world : Type := mkWorld {
  account_loaded : bool;
  saved_credentials : bool;
  level : Z;
  filters : list string
}.

Definition demo_response (kind job_id : string) : res exn pyval :=
  if bool_decide (job_id = "job-1")
  then Ret (PyDict [("id", PyStr job_id);
                    ("url", PyStr ("https://cloud.example/" +:+ kind))])
  else if bool_decide (job_id = "job-2")
  then Ret (PyDict [("id", PyStr job_id)])
  else Err (OtherException "RequestsApiError").

Global Instance demo_cloud : Cloud demo_world unit string := {|
  IBMQ_get_provider := λ w,
    (if account_loaded w then Ret tt else Err IBMQProviderError, w);
  IBMQ_load_account := λ w,
    if saved_credentials w
    then (Ret tt, {| account_loaded := true;
                     saved_credentials := true;
                     level := level w; filters := filters w |})
    else (Err (OtherException "IBMQAccountCredentialsNotFound"), w);
  backends_retrieve_job := λ _ job_id w,
    (if bool_decide (job_id = "job-1") then Ret job_id
     else Err (OtherException "IBMQBackendApiError"), w);
  job_job_id := λ j w, (Ret j, w);
  api_download_url := λ _ job_id w, (demo_response "download" job_id, w);
  api_result_url := λ _ job_id w, (demo_response "result" job_id, w);
  logger_level := level;
  logger_setLevel := λ l w,
    {| account_loaded := account_loaded w;
       saved_credentials := saved_credentials w;
       level := l; filters := filters w |};
  warnings_filters := filters;
  warnings_restore := λ fs w,
    {| account_loaded := account_loaded w;
       saved_credentials := saved_credentials w;
       level := level w; filters := fs |};
  warnings_simplefilter := λ action w,
    {| account_loaded := account_loaded w;
       saved_credentials := saved_credentials w;
       level := level w; filters := action :: filters w |}
|}.

Definition offline : demo_world :=
  {| account_loaded := false; saved_credentials := false;
     level := 30; filters := [] |}.

Definition online : demo_world :=
  {| account_loaded := false; saved_credentials := true;
     level := 30; filters := [] |}.

(** A function to decorate, on integers: the square, keyed by the absolute
    value; it raises on 0. *)
Definition abs_key (n : Z) : string * Z := ("square", Z.abs n).

Definition square (n : Z) : M state stop Z :=
  if bool_decide (n = 0%Z) then raise (Raise (OtherException "ValueError"))
  else counted (λ n, ret (n * n)%Z) n.
(** ** The decorator, case by case *)

Section CachedFacts.
Context {A : Type} (key_function : A → string * Z) (f : A → M state stop Z).

Lemma cached_hit args s v :
  cache s !! key_function args = Some v →
  cached key_function f args s = (Ret v, s).
Proof.
  intros Hk. unfold cached, bind, gets, cache_getitem. simpl.
  rewrite Hk. simpl. by rewrite Hk.
Qed.

Lemma cached_miss_ret args s v s1 :
  cache s !! key_function args = None →
  f args s = (Ret v, s1) →
  cached key_function f args s
  = (Ret v, set_cache (<[key_function args := v]>) s1).
Proof.
  intros Hk Hf. unfold cached, bind, gets, cache_getitem, modify. simpl.
  rewrite Hk. simpl. rewrite Hf. simpl. by rewrite lookup_insert_eq.
Qed.

Lemma cached_miss_err args s e s1 :
  cache s !! key_function args = None →
  f args s = (Err e, s1) →
  cached key_function f args s = (Err e, s1).
Proof.
  intros Hk Hf. unfold cached, bind, gets. simpl.
  rewrite Hk. simpl. by rewrite Hf.
Qed.

End CachedFacts.

(** ** Basic facts about [gate_cost] *)

Section GateCostFacts.
Context `{Sdk obj}.

Lemma gate_cost_unfold fuel :
  gate_cost fuel = cached gate_key (gate_cost_f fuel).
Proof. by destruct fuel. Qed.

Lemma gate_cost_hit fuel (gate : obj) s v :
  cache s !! gate_key gate = Some v →
  gate_cost fuel gate s = (Ret v, s).
Proof. rewrite gate_cost_unfold. apply cached_hit. Qed.

Lemma gate_cost_miss_ret fuel (gate : obj) s v s1 :
  cache s !! gate_key gate = None →
  gate_cost_f fuel gate s = (Ret v, s1) →
  gate_cost fuel gate s = (Ret v, set_cache (<[gate_key gate := v]>) s1).
Proof. rewrite gate_cost_unfold. apply cached_miss_ret. Qed.

Lemma gate_cost_miss_err fuel (gate : obj) s e s1 :
  cache s !! gate_key gate = None →
  gate_cost_f fuel gate s = (Err e, s1) →
  gate_cost fuel gate s = (Err e, s1).
Proof. rewrite gate_cost_unfold. apply cached_miss_err. Qed.

(** Every way a call can end. *)
Lemma gate_cost_cases fuel (gate : obj) s r s' :
  gate_cost fuel gate s = (r, s') →
  (∃ v, cache s !! gate_key gate = Some v ∧ r = Ret v ∧ s' = s) ∨
  (cache s !! gate_key gate = None ∧
   ((∃ v s1, gate_cost_f fuel gate s = (Ret v, s1) ∧ r = Ret v ∧
             s' = set_cache (<[gate_key gate := v]>) s1) ∨
    (∃ e, gate_cost_f fuel gate s = (Err e, s') ∧ r = Err e))).
Proof.
  intros Hrun.
  destruct (cache s !! gate_key gate) as [v|] eqn:Hk.
  - left. exists v. rewrite (gate_cost_hit _ _ _ _ Hk) in Hrun. naive_solver.
  - right. split; [done|].
    destruct (gate_cost_f fuel gate s) as [[v|e] s1] eqn:Hf.
    + left. rewrite (gate_cost_miss_ret _ _ _ _ _ Hk Hf) in Hrun. naive_solver.
    + right. rewrite (gate_cost_miss_err _ _ _ _ _ Hk Hf) in Hrun. naive_solver.
Qed.

(** A value that [gate_cost] returns is the cache's entry for the key. *)
Lemma gate_cost_ret_cached fuel (gate : obj) s v s' :
  gate_cost fuel gate s = (Ret v, s') →
  cache s' !! gate_key gate = Some v.
Proof.
  intros Hrun. apply gate_cost_cases in Hrun as [(w & Hk & [= ->] & ->)|[Hk Hrun]].
  - done.
  - destruct Hrun as [(w & s1 & _ & [= ->] & ->)|(e & _ & [=])].
    simpl. apply lookup_insert_eq.
Qed.

Lemma insert_fresh_subseteq (m m1 : cache_t) k v :
  m !! k = None → m ⊆ m1 → m ⊆ <[k := v]> m1.
Proof.
  intros Hk Hm. apply map_subseteq_spec. intros i x Hi.
  destruct (decide (k = i)) as [->|Hne]; [congruence|].
  rewrite lookup_insert_ne by done.
  by eapply lookup_weaken.
Qed.

Lemma sum_map_extends (f : obj → M state stop Z) :
  (∀ g s, cache s ⊆ cache (f g s).2) →
  ∀ gs total s, cache s ⊆ cache (sum_map f gs total s).2.
Proof.
  intros Hf. induction gs as [|g gs IH]; intros total s; simpl; [done|].
  unfold bind. specialize (Hf g s).
  destruct (f g s) as [[v|e] s1]; simpl in *; [|done].
  etrans; [exact Hf|apply IH].
Qed.

(** Call by call the cache only grows: what a call finds in the cache when it
    starts is still there, with the same value, when it ends, whatever the
    way it ends. *)
Lemma gate_cost_extends fuel :
  ∀ (gate : obj) s, cache s ⊆ cache (gate_cost fuel gate s).2.
Proof.
  induction fuel as [|n IH]; intros gate s.
  - destruct (gate_cost 0 gate s) as [r s'] eqn:Hrun. simpl.
    apply gate_cost_cases in Hrun as [(w & _ & _ & ->)|[Hk Hrun]]; [done|].
    destruct Hrun as [(w & s1 & [=] & _)|(e & [= _ <-] & _)]. done.
  - destruct (gate_cost (S n) gate s) as [r s'] eqn:Hrun. simpl.
    apply gate_cost_cases in Hrun as [(w & _ & _ & ->)|[Hk Hrun]]; [done|].
    assert (Hbody : cache s ⊆ cache (gate_cost_f (S n) gate s).2).
    { unfold gate_cost_f, counted, gate_cost_body.
      repeat case_match; try done.
      unfold bind, definition_data.
      destruct (definition gate); simpl; [|done].
      apply (sum_map_extends (gate_cost n) IH _ 0%Z (tick s)). }
    destruct Hrun as [(w & s1 & Hf & _ & ->)|(e & Hf & _)];
      rewrite Hf in Hbody; simpl in *; [|done].
    by apply insert_fresh_subseteq.
Qed.

End GateCostFacts.

(** ** Memoization *)

Section Memoization.
Context `{Sdk obj}.

Lemma run_calls_extends (later : list (nat * obj)) :
  ∀ s, cache s ⊆ cache (run_calls later s).
Proof.
  induction later as [|[fuel g] later IH]; intros s; simpl; [done|].
  etrans; [apply (gate_cost_extends fuel g s)|apply IH].
Qed.


(** The ghost counter never decreases, and an entry into the body of
    [gate_cost] increases it. *)
Lemma sum_map_calls_le (f : obj → M state stop Z) gs :
  (∀ g s, calls s ≤ calls (f g s).2) →
  ∀ total s, calls s ≤ calls (sum_map f gs total s).2.
Proof.
  intros Hf. induction gs as [|g gs IH]; intros total s; simpl; [done|].
  unfold bind. specialize (Hf g s).
  destruct (f g s) as [[v|e] s1]; simpl in *; [|done].
  etrans; [exact Hf|apply IH].
Qed.

Lemma gate_cost_f_calls_lt (rec : obj → M state stop Z) (gate : obj) s :
  (∀ g s0, calls s0 ≤ calls (rec g s0).2) →
  calls s < calls (counted (gate_cost_body rec) gate s).2.
Proof.
  intros Hrec. unfold counted, gate_cost_body.
  repeat case_match; simpl; try lia.
  unfold bind, definition_data.
  destruct (definition gate) as [circuit|]; simpl; [|lia].
  pose proof (sum_map_calls_le rec (operations circuit) Hrec 0%Z (tick s)).
  simpl in *. lia.
Qed.

Lemma gate_cost_calls_le fuel :
  ∀ (gate : obj) s, calls s ≤ calls (gate_cost fuel gate s).2.
Proof.
  induction fuel as [|n IH]; intros gate s;
    destruct (gate_cost _ gate s) as [r s'] eqn:Hrun; simpl;
    apply gate_cost_cases in Hrun as [(w & _ & _ & ->)|[_ Hrun]]; try done.
  - destruct Hrun as [(w & s1 & [=] & _)|(e & [= _ <-] & _)]. done.
  - pose proof (gate_cost_f_calls_lt (gate_cost n) gate s IH) as Hlt.
    change (counted (gate_cost_body (gate_cost n)) gate s)
      with (gate_cost_f (S n) gate s) in Hlt.
    destruct Hrun as [(w & s1 & Hf & _ & ->)|(e & Hf & _)];
      rewrite Hf in Hlt; simpl in *; lia.
Qed.

End Memoization.



(** C5, as stated, fails: two calls on gates with the same name and number
    of qubits, here on the very same [UGate], can return different values.
    The gate [double_u], named "u" on one qubit, is made of two [UGate]
    rotations. The call on it misses the cache and its body calls
    [gate_cost] on the rotation, which returns 1; the body returns 2 and
    line 79 stores 2 under [("u", 1)]; a later call on the rotation
    returns 2. *)
Lemma gate_cost_same_key_different_values :
  let s0 := tick initial_state in
  let s' := (gate_cost 2 double_u initial_state).2 in
  gate_key u_gate = gate_key double_u ∧
  gate_cost_f 2 double_u initial_state
  = sum_map (gate_cost 1) [u_gate; u_gate] 0%Z s0 ∧
  (gate_cost 1 u_gate s0).1 = Ret 1%Z ∧
  (gate_cost 2 double_u initial_state).1 = Ret 2%Z ∧
  gate_cost 1 u_gate s' = (Ret 2%Z, s').
Proof. repeat split; vm_compute; reflexivity. Qed.

(** C5, amended. The cache is keyed on the pair [(name, num_qubits)] and on
    nothing else. A call consults the entry under the name and the number of
    qubits of its gate: when there is one it returns it, and when there is
    none it enters the body. So once a call on [gate1] has returned [v] and
    is over, a call on any [gate2] with the same name and number of qubits,
    made in the state that call left or after any further calls of
    [gate_cost], returns [v] and changes nothing, whatever the class of
    [gate2] and whatever its decomposition. (A value returned to a call that
    is still pending on a gate with the same key is not covered: the pending
    call's store replaces it.) *)
Theorem gate_cost_keyed_on_name_and_arity `{Sdk obj}
    (gate1 gate2 : obj) (fuel1 fuel2 : nat) (s s1 t : state) (v : Z)
    (later : list (nat * obj)) :
  (gate_cost fuel1 gate1 s = (Ret v, s1) →
   name gate2 = name gate1 →
   num_qubits gate2 = num_qubits gate1 →
   gate_cost fuel2 gate2 (run_calls later s1) = (Ret v, run_calls later s1)) ∧
  (∀ w, cache t !! (name gate2, num_qubits gate2) = Some w →
        gate_cost fuel2 gate2 t = (Ret w, t)) ∧
  (cache t !! (name gate2, num_qubits gate2) = None →
   calls t < calls (gate_cost (S fuel2) gate2 t).2 ∧
   (∀ v2 t2, gate_cost_f (S fuel2) gate2 t = (Ret v2, t2) →
             cache (gate_cost (S fuel2) gate2 t).2
             = <[(name gate2, num_qubits gate2) := v2]> (cache t2))).
Proof.
  split; [|split].
  - intros Hrun Hname Hnq.
    apply gate_cost_hit.
    apply (lookup_weaken (cache s1)); [|apply run_calls_extends].
    unfold gate_key. rewrite Hname, Hnq.
    by apply gate_cost_ret_cached in Hrun.
  - intros w Hk. by apply gate_cost_hit.
  - intros Hk.
    pose proof (gate_cost_f_calls_lt (gate_cost fuel2) gate2 t
                  (gate_cost_calls_le fuel2)) as Hlt.
    change (counted (gate_cost_body (gate_cost fuel2)) gate2 t)
      with (gate_cost_f (S fuel2) gate2 t) in Hlt.
    destruct (gate_cost_f (S fuel2) gate2 t) as [[v2|e] t2] eqn:Hf.
    + rewrite (gate_cost_miss_ret (S fuel2) gate2 t v2 t2 Hk Hf).
      split; [done|]. by intros v2' t2' [= <- <-].
    + rewrite (gate_cost_miss_err (S fuel2) gate2 t e t2 Hk Hf).
      split; [done|]. by intros v2' t2' [=].
Qed.

Lemma gate_cost_keyed_on_name_and_arity_witness :
  let s1 := (gate_cost 2 two_u3 initial_state).2 in
  let s2 := run_calls [(1, cx_gate); (0, three_cx)] s1 in
  gate_cost 2 two_u3 initial_state = (Ret 2%Z, s1) ∧
  gate_cost 2 three_cx s2 = (Ret 2%Z, s2) ∧
  gate_cost 2 three_cx initial_state
  = (Ret 30%Z, (gate_cost 2 three_cx initial_state).2) ∧
  gate_cost 0 u3_gate s1 = (Ret 1%Z, s1) ∧
  calls s1 < calls (gate_cost 1 opaque_pair_3 s1).2 ∧
  calls s1 < calls (gate_cost 1 cx_gate s1).2 ∧
  cache (gate_cost 1 cx_gate s1).2 !! ("cx", 2%Z) = Some 10%Z.
Proof.
  intros s1 s2.
  assert (Hfirst : gate_cost 2 two_u3 initial_state = (Ret 2%Z, s1))
    by (vm_compute; reflexivity).
  assert (Hu3 : cache s1 !! (name u3_gate, num_qubits u3_gate) = Some 1%Z)
    by (vm_compute; reflexivity).
  assert (Harity : cache s1 !! (name opaque_pair_3, num_qubits opaque_pair_3)
                   = None) by (vm_compute; reflexivity).
  assert (Hname : cache s1 !! (name cx_gate, num_qubits cx_gate) = None)
    by (vm_compute; reflexivity).
  destruct (gate_cost_keyed_on_name_and_arity two_u3 three_cx 2 2
              initial_state s1 s1 2%Z [(1, cx_gate); (0, three_cx)])
    as (Hsame & _ & _).
  destruct (gate_cost_keyed_on_name_and_arity two_u3 u3_gate 2 0
              initial_state s1 s1 2%Z []) as (_ & Hhit & _).
  destruct (gate_cost_keyed_on_name_and_arity two_u3 opaque_pair_3 2 0
              initial_state s1 s1 2%Z []) as (_ & _ & Hmiss3).
  destruct (gate_cost_keyed_on_name_and_arity two_u3 cx_gate 2 0
              initial_state s1 s1 2%Z []) as (_ & _ & Hmissu).
  destruct (Hmissu Hname) as [Hcalls Hstore].
  split; [exact Hfirst|].
  split; [exact (Hsame Hfirst eq_refl eq_refl)|].
  split; [vm_compute; reflexivity|].
  split; [exact (Hhit _ Hu3)|].
  split; [exact (proj1 (Hmiss3 Harity))|].
  split; [exact Hcalls|].
  rewrite (Hstore 10%Z (gate_cost_f 1 cx_gate s1).2);
    [|vm_compute; reflexivity].
  apply lookup_insert_eq.
Defined.

(** C6, as stated, fails. A gate named "u" on one qubit, built from two [u]
    rotations, has the key of its own sub-gates. Its call misses the cache;
    the nested call on the first rotation stores [("u", 1) -> 1]; when the
    body returns 2, line 79 stores [("u", 1) -> 2] over that entry. *)



(** ** The three branches *)

Section ThreeBranches.
Context `{Sdk obj}.

Lemma sum_map_map_calls (f : obj → M state stop Z) gs :
  ∀ total s,
    sum_map f gs total s
    = match map_calls f gs s with
      | (Ret vs, s') => (Ret (total + sum_list vs)%Z, s')
      | (Err e, s') => (Err e, s')
      end.
Proof.
  induction gs as [|g gs IH]; intros total s; simpl.
  - unfold ret. by rewrite Z.add_0_r.
  - unfold bind. destruct (f g s) as [[v|e] s1]; [|done].
    rewrite IH.
    destruct (map_calls f gs s1) as [[vs|e] s2]; [|done].
    unfold ret. simpl. by rewrite Z.add_assoc.
Qed.

(** The class tests of the body exclude one another. *)
Lemma isinstance_CXGate_not_rotation (gate : obj) :
  isinstance gate CXGate = true →
  isinstance gate UGate = false ∧ isinstance gate U3Gate = false.
Proof. unfold isinstance. by destruct (class_of gate). Qed.

Lemma primitive_false (gate : obj) :
  primitive gate = false →
  isinstance gate UGate = false ∧ isinstance gate U3Gate = false ∧
  isinstance gate CXGate = false.
Proof.
  unfold primitive. intros Hp.
  apply orb_false_elim in Hp as [Hp ?].
  by apply orb_false_elim in Hp as [? ?].
Qed.

Lemma gate_cost_rotation_miss fuel (gate : obj) s :
  cache s !! gate_key gate = None →
  isinstance gate UGate = true ∨ isinstance gate U3Gate = true →
  gate_cost (S fuel) gate s
  = (Ret 1%Z, set_cache (<[gate_key gate := 1%Z]>) (tick s)).
Proof.
  intros Hk Hc. apply gate_cost_miss_ret; [done|].
  unfold gate_cost_f, counted, gate_cost_body.
  destruct Hc as [-> | ->]; [done|]. by case_match.
Qed.

Lemma gate_cost_cx_miss fuel (gate : obj) s :
  cache s !! gate_key gate = None →
  isinstance gate CXGate = true →
  gate_cost (S fuel) gate s
  = (Ret 10%Z, set_cache (<[gate_key gate := 10%Z]>) (tick s)).
Proof.
  intros Hk Hc. apply gate_cost_miss_ret; [done|].
  destruct (isinstance_CXGate_not_rotation _ Hc) as [Hu Hu3].
  unfold gate_cost_f, counted, gate_cost_body. by rewrite Hu, Hu3, Hc.
Qed.

Lemma gate_cost_f_composite fuel (gate : obj) circuit s :
  primitive gate = false →
  definition gate = Some circuit →
  gate_cost_f (S fuel) gate s
  = sum_map (gate_cost fuel) (operations circuit) 0%Z (tick s).
Proof.
  intros Hp Hd. apply primitive_false in Hp as (Hu & Hu3 & Hcx).
  unfold gate_cost_f, counted, gate_cost_body, definition_data, bind.
  by rewrite Hu, Hu3, Hcx, Hd.
Qed.

Lemma gate_cost_f_undefined fuel (gate : obj) s :
  primitive gate = false →
  definition gate = None →
  gate_cost_f (S fuel) gate s = (Err (Raise (AttributeError "data")), tick s).
Proof.
  intros Hp Hd. apply primitive_false in Hp as (Hu & Hu3 & Hcx).
  unfold gate_cost_f, counted, gate_cost_body, definition_data, bind.
  by rewrite Hu, Hu3, Hcx, Hd.
Qed.

(** A rotation costs 1 on a miss and on a hit of its own earlier entry. *)
Lemma gate_cost_rotation_fresh fuel (gate : obj) s :
  isinstance gate UGate = true ∨ isinstance gate U3Gate = true →
  cache s !! gate_key gate = None ∨ cache s !! gate_key gate = Some 1%Z →
  ∃ s', gate_cost (S fuel) gate s = (Ret 1%Z, s') ∧
        ∀ k, k ≠ gate_key gate → cache s' !! k = cache s !! k.
Proof.
  intros Hc [Hk|Hk].
  - eexists. split; [by apply gate_cost_rotation_miss|].
    intros k Hne. simpl. by rewrite lookup_insert_ne.
  - exists s. split; [by apply gate_cost_hit|done].
Qed.

End ThreeBranches.

(** C1, as stated, fails: the value of a call depends on the cache. A gate
    named "u" on one qubit built from two [u3] rotations costs 2 and leaves
    [("u", 1) -> 2] in the cache; after it the [UGate] rotation, whose key
    is [("u", 1)], costs 2, and a gate that decomposes into two [UGate]
    rotations and a [CXGate] costs 14. *)

Lemma gate_cost_depends_on_cache :
  let s1 := (gate_cost 2 custom_u initial_state).2 in
  gate_cost 2 custom_u initial_state = (Ret 2%Z, s1) ∧
  isinstance u_gate UGate = true ∧
  gate_cost 2 u_gate s1 = (Ret 2%Z, s1) ∧
  operations <$> definition u_u_cx = Some [u_gate; u_gate; cx_gate] ∧
  (gate_cost 2 u_u_cx s1).1 = Ret 14%Z.
Proof. repeat split; vm_compute; reflexivity. Qed.

(** C1, amended. For every gate whose key [(name, num_qubits)] is not in the
    cache, [gate_cost] follows the three branches: 1 for a [UGate] or
    [U3Gate], 10 for a [CXGate], otherwise the sum of the values that the
    recursive (memoized) calls of [gate_cost] on the sub-gates return, made
    in the order of the decomposition; an error of a sub-call is the error
    of the call. A gate decomposing into two single-qubit primitives and the
    two-qubit primitive costs 12 when the cache holds none of the three keys
    and the two-qubit primitive's key is not a single-qubit one's. *)
Theorem gate_cost_three_branches `{Sdk obj} (gate : obj) (fuel : nat)
    (s : state) :
  cache s !! gate_key gate = None →
  (isinstance gate UGate = true ∨ isinstance gate U3Gate = true →
   (gate_cost (S fuel) gate s).1 = Ret 1%Z) ∧
  (isinstance gate CXGate = true →
   (gate_cost (S fuel) gate s).1 = Ret 10%Z) ∧
  (primitive gate = false →
   ∀ circuit, definition gate = Some circuit →
     (∀ vs s1,
        map_calls (gate_cost fuel) (operations circuit) (tick s) = (Ret vs, s1) →
        gate_cost (S fuel) gate s
        = (Ret (sum_list vs),
           set_cache (<[gate_key gate := sum_list vs]>) s1)) ∧
     (∀ e s1,
        map_calls (gate_cost fuel) (operations circuit) (tick s) = (Err e, s1) →
        gate_cost (S fuel) gate s = (Err e, s1)) ∧
     (∀ a b c : obj,
        operations circuit = [a; b; c] →
        isinstance a UGate = true ∨ isinstance a U3Gate = true →
        isinstance b UGate = true ∨ isinstance b U3Gate = true →
        isinstance c CXGate = true →
        cache s !! gate_key a = None →
        cache s !! gate_key b = None →
        cache s !! gate_key c = None →
        gate_key c ≠ gate_key a →
        gate_key c ≠ gate_key b →
        (gate_cost (S (S fuel)) gate s).1 = Ret 12%Z)).
Proof.
  intros Hk. split; [|split].
  - intros Hc. by rewrite gate_cost_rotation_miss.
  - intros Hc. by rewrite gate_cost_cx_miss.
  - intros Hp circuit Hd. split; [|split].
    + intros vs s1 Hcalls.
      apply gate_cost_miss_ret; [done|].
      rewrite (gate_cost_f_composite _ _ _ _ Hp Hd), sum_map_map_calls.
      by rewrite Hcalls.
    + intros e s1 Hcalls.
      apply gate_cost_miss_err; [done|].
      rewrite (gate_cost_f_composite _ _ _ _ Hp Hd), sum_map_map_calls.
      by rewrite Hcalls.
    + intros a b c Hops Ha Hb Hc Hka Hkb Hkc Hca Hcb.
      assert (∃ s1, gate_cost_f (S (S fuel)) gate s = (Ret 12%Z, s1))
        as [s1 Hf]; [|by rewrite (gate_cost_miss_ret _ _ _ _ _ Hk Hf)].
      rewrite (gate_cost_f_composite _ _ _ _ Hp Hd), Hops.
      cbn [sum_map]. unfold bind.
      rewrite (gate_cost_rotation_miss fuel a (tick s) Hka Ha).
      cbv beta iota.
      set (sa := set_cache (<[gate_key a := 1%Z]>) (tick (tick s))).
      destruct (gate_cost_rotation_fresh fuel b sa Hb) as (sb & -> & Hframe).
      { simpl. destruct (decide (gate_key a = gate_key b)) as [<-|Hne].
        - right. apply lookup_insert_eq.
        - left. by rewrite lookup_insert_ne. }
      cbv beta iota.
      rewrite (gate_cost_cx_miss fuel c sb); [by eexists| |done].
      rewrite Hframe by done. simpl. by rewrite lookup_insert_ne.
Qed.

Lemma gate_cost_three_branches_witness :
  (gate_cost 1 u_gate initial_state).1 = Ret 1%Z ∧
  (gate_cost 1 u3_gate initial_state).1 = Ret 1%Z ∧
  (gate_cost 1 cx_gate initial_state).1 = Ret 10%Z ∧
  (gate_cost 2 u_u_cx initial_state).1 = Ret (sum_list [1; 1; 10])%Z ∧
  (gate_cost 2 u_u_cx initial_state).1 = Ret 12%Z.
Proof.
  pose proof (gate_cost_three_branches u_gate 0 initial_state eq_refl)
    as (Hu & _ & _).
  pose proof (gate_cost_three_branches u3_gate 0 initial_state eq_refl)
    as (Hu3 & _ & _).
  pose proof (gate_cost_three_branches cx_gate 0 initial_state eq_refl)
    as (_ & Hcx & _).
  pose proof (gate_cost_three_branches u_u_cx 1 initial_state eq_refl)
    as (_ & _ & Hsum).
  pose proof (gate_cost_three_branches u_u_cx 0 initial_state eq_refl)
    as (_ & _ & Htwelve).
  destruct (Hsum eq_refl _ eq_refl) as (Hret & _ & _).
  destruct (Htwelve eq_refl _ eq_refl) as (_ & _ & H12).
  split; [exact (Hu (or_introl eq_refl))|].
  split; [exact (Hu3 (or_intror eq_refl))|].
  split; [exact (Hcx eq_refl)|].
  split.
  - erewrite Hret; [reflexivity|]. vm_compute. reflexivity.
  - apply (H12 u_gate u_gate cx_gate); try reflexivity;
      try (by left); done.
Defined.

(** ** Gates without a decomposition *)

(** C7, as stated, fails. An empty decomposition is not an error: a gate
    whose definition is a circuit without instructions costs 0, the sum of
    no terms. An absent decomposition does not fail either when the gate's
    key is in the cache. *)

Lemma gate_cost_empty_decomposition :
  primitive idle = false ∧
  definition idle = Some (mkCircuit []) ∧
  (gate_cost 1 idle initial_state).1 = Ret 0%Z ∧
  primitive opaque_pair = false ∧
  definition opaque_pair = None ∧
  (gate_cost 1 opaque_pair (gate_cost 2 two_u3 initial_state).2).1 = Ret 2%Z.
Proof. repeat split; vm_compute; reflexivity. Qed.

(** C7, amended. For every gate that is not one of the recognized primitive
    kinds, whose decomposition is absent ([definition] is [None]) and whose
    key is not in the cache, [gate_cost] raises [AttributeError] (the access
    to [.data] on [None]) and stores nothing. When the decomposition is
    present and empty, the call returns 0. *)
Theorem gate_cost_without_decomposition `{Sdk obj} (gate : obj) (fuel : nat)
    (s : state) :
  primitive gate = false →
  cache s !! gate_key gate = None →
  (definition gate = None →
   (gate_cost (S fuel) gate s).1 = Err (Raise (AttributeError "data")) ∧
   cache (gate_cost (S fuel) gate s).2 = cache s) ∧
  (∀ circuit, definition gate = Some circuit → data circuit = [] →
              (gate_cost (S fuel) gate s).1 = Ret 0%Z).
Proof.
  intros Hp Hk. split.
  - intros Hd.
    by rewrite (gate_cost_miss_err _ _ _ _ _ Hk
                  (gate_cost_f_undefined fuel gate s Hp Hd)).
  - intros circuit Hd Hdata.
    erewrite gate_cost_miss_ret; [done|done|].
    rewrite (gate_cost_f_composite _ _ _ _ Hp Hd).
    unfold operations. by rewrite Hdata.
Qed.

Lemma gate_cost_without_decomposition_witness :
  ((gate_cost 1 opaque initial_state).1 = Err (Raise (AttributeError "data")) ∧
   cache (gate_cost 1 opaque initial_state).2 = cache initial_state) ∧
  (gate_cost 1 idle initial_state).1 = Ret 0%Z.
Proof.
  split.
  - exact (proj1 (gate_cost_without_decomposition opaque 0 initial_state
                    eq_refl eq_refl) eq_refl).
  - exact (proj2 (gate_cost_without_decomposition idle 0 initial_state
                    eq_refl eq_refl) (mkCircuit []) eq_refl eq_refl).
Defined.

(** ** [has_cx] *)

(** C3. [has_cx] returns true exactly when some instruction of the circuit's
    list is a [CXGate]. It returns false for a circuit of single-qubit
    gates: one whose operations are all rotations [UGate] or [U3Gate], or,
    the SDK constructing every [CXGate] on two qubits, one whose operations
    all act on one qubit. *)
Theorem has_cx_iff `{Sdk obj} (circuit : QuantumCircuit obj) :
  (has_cx circuit = true ↔
   ∃ g qs cs, (g, qs, cs) ∈ data circuit ∧ isinstance g CXGate = true) ∧
  ((∀ g qs cs, (g, qs, cs) ∈ data circuit →
               isinstance g UGate = true ∨ isinstance g U3Gate = true) →
   has_cx circuit = false) ∧
  ((∀ g : obj, isinstance g CXGate = true → num_qubits g = 2%Z) →
   (∀ g qs cs, (g, qs, cs) ∈ data circuit → num_qubits g = 1%Z) →
   has_cx circuit = false).
Proof.
  assert (Hiff : has_cx circuit = true ↔
            ∃ g qs cs, (g, qs, cs) ∈ data circuit ∧ isinstance g CXGate = true).
  { unfold has_cx, operations. rewrite existsb_exists. split.
    - intros (g & Hin & Hg). apply in_map_iff in Hin as ([[g' qs] cs] & <- & Hin).
      exists g', qs, cs. split; [by apply list_elem_of_In|done].
    - intros (g & qs & cs & Hin & Hg). exists g. split; [|done].
      apply in_map_iff. exists (g, qs, cs). split; [done|].
      by apply list_elem_of_In. }
  split; [exact Hiff|]. split.
  - intros Hall. apply not_true_is_false. intros Hcx.
    apply Hiff in Hcx as (g & qs & cs & Hin & Hg).
    destruct (isinstance_CXGate_not_rotation g Hg) as [Hu Hu3].
    destruct (Hall g qs cs Hin); congruence.
  - intros Harity Hall. apply not_true_is_false. intros Hcx.
    apply Hiff in Hcx as (g & qs & cs & Hin & Hg).
    specialize (Harity g Hg). specialize (Hall g qs cs Hin). lia.
Qed.

Lemma has_cx_iff_witness :
  has_cx bell = true ∧ has_cx rotations = false ∧
  has_cx std_rotations = false.
Proof.
  split; [|split].
  - apply (proj1 (has_cx_iff bell)).
    exists cx_gate, [0; 1], []. split; [|reflexivity].
    unfold bell, on. simpl. set_solver.
  - apply (proj1 (proj2 (has_cx_iff rotations))).
    intros g qs cs Hin. unfold rotations, on in Hin. simpl in Hin.
    apply elem_of_cons in Hin as [[= -> _ _]|Hin]; [by left|].
    apply elem_of_cons in Hin as [[= -> _ _]|Hin]; [by right|].
    apply elem_of_cons in Hin as [[= -> _ _]|Hin]; [by left|].
    by apply elem_of_nil in Hin.
  - apply (proj2 (proj2 (has_cx_iff std_rotations))).
    + intros g Hg. by destruct g.
    + intros g qs cs Hin. unfold std_rotations in Hin. simpl in Hin.
      repeat (apply elem_of_cons in Hin as [[= -> _ _]|Hin]; [done|]).
      by apply elem_of_nil in Hin.
Defined.

(** ** Agreement with the cost computed without a cache *)

Section Coherence.
Context `{Sdk obj}.

Lemma mapM_three_branch_cost_ext (d d' : nat) (gs : list obj) vs :
  (∀ g v, g ∈ gs → three_branch_cost d g = Some v →
          three_branch_cost d' g = Some v) →
  mapM (three_branch_cost d) gs = Some vs →
  mapM (three_branch_cost d') gs = Some vs.
Proof.
  revert vs. induction gs as [|g gs IH]; intros vs Hext; simpl; [done|].
  destruct (three_branch_cost d g) as [v|] eqn:Hg; simpl; [|done].
  rewrite (Hext g v) by (done || set_solver). simpl.
  destruct (mapM (three_branch_cost d) gs) as [ws|] eqn:Hgs; simpl; [|done].
  rewrite (IH ws); [done| |done]. intros g' v' Hin. apply Hext. set_solver.
Qed.

(** More depth does not change a cost. *)
Lemma three_branch_cost_mono (d : nat) :
  ∀ d' (gate : obj) v,
    d ≤ d' → three_branch_cost d gate = Some v →
    three_branch_cost d' gate = Some v.
Proof.
  induction d as [|d IH]; intros d' gate v Hle; [done|].
  destruct d' as [|d']; [lia|]. simpl.
  repeat case_match; try done.
  destruct (definition gate) as [circuit|]; simpl; [|done].
  destruct (mapM (three_branch_cost d) (operations circuit)) as [vs|] eqn:Hvs;
    simpl; [|done].
  intros [= <-].
  rewrite (mapM_three_branch_cost_ext d d' _ vs); [done| |done].
  intros g w _. apply IH. lia.
Qed.

Lemma three_branch_cost_functional (d d' : nat) (gate : obj) v v' :
  three_branch_cost d gate = Some v →
  three_branch_cost d' gate = Some v' →
  v = v'.
Proof.
  intros Hv Hv'.
  apply (three_branch_cost_mono d (d `max` d')) in Hv; [|lia].
  apply (three_branch_cost_mono d' (d `max` d')) in Hv'; [|lia].
  congruence.
Qed.

(** Keys that identify the gate make the universe coherent. *)
Lemma coherent_injective_keys :
  (∀ g g' : obj, gate_key g = gate_key g' → g = g') → coherent (obj := obj).
Proof.
  intros Hinj g g' d d' v v' Hkey Hv Hv'.
  apply Hinj in Hkey as <-. by eapply three_branch_cost_functional.
Qed.

Lemma sound_empty : sound (obj := obj) ∅.
Proof. intros g d v w Hw. by rewrite lookup_empty in Hw. Qed.

Lemma sound_insert (c : cache_t) (gate : obj) d v :
  coherent (obj := obj) → sound (obj := obj) c →
  three_branch_cost d gate = Some v →
  sound (obj := obj) (<[gate_key gate := v]> c).
Proof.
  intros Hcoh Hc Hv g d' v' w Hw Hv'.
  destruct (decide (gate_key gate = gate_key g)) as [Heq|Hne].
  - rewrite Heq, lookup_insert_eq in Hw. injection Hw as <-.
    by eapply (Hcoh gate g).
  - rewrite lookup_insert_ne in Hw by done. by eapply Hc.
Qed.

Lemma mapM_three_branch_cost_Some d (gs : list obj) vs :
  mapM (three_branch_cost d) gs = Some vs →
  Forall (λ g, is_Some (three_branch_cost d g)) gs ∧ vs = map (cost_of d) gs.
Proof.
  revert vs. induction gs as [|g gs IH]; intros vs; simpl.
  - by intros [= <-].
  - unfold cost_of at 1.
    destruct (three_branch_cost d g) as [v|] eqn:Hg; simpl; [|done].
    destruct (mapM (three_branch_cost d) gs) as [ws|]; simpl; [|done].
    intros [= <-]. destruct (IH ws eq_refl) as [Hall ->].
    split; [|done]. constructor; [by rewrite Hg|done].
Qed.

Lemma map_calls_sound (f : obj → M state stop Z) d :
  (∀ g s v, sound (obj := obj) (cache s) → three_branch_cost d g = Some v →
            ∃ s', f g s = (Ret v, s') ∧ sound (obj := obj) (cache s')) →
  ∀ gs s,
    sound (obj := obj) (cache s) →
    Forall (λ g, is_Some (three_branch_cost d g)) gs →
    ∃ s', map_calls f gs s = (Ret (map (cost_of d) gs), s') ∧
          sound (obj := obj) (cache s').
Proof.
  intros Hf. induction gs as [|g gs IH]; intros s Hs Hall; simpl.
  - by exists s.
  - apply Forall_cons in Hall as [[v Hv] Hall].
    destruct (Hf g s v Hs Hv) as (s1 & Hg & Hs1).
    destruct (IH s1 Hs1 Hall) as (s2 & Hgs & Hs2).
    assert (cost_of d g = v) as -> by (unfold cost_of; by rewrite Hv).
    exists s2. unfold bind. by rewrite Hg, Hgs.
Qed.

(** With coherent keys and a sound cache, the memoized function computes the
    three-branch cost, and leaves the cache sound. *)
Lemma gate_cost_sound :
  coherent (obj := obj) →
  ∀ fuel (gate : obj) s v,
    sound (obj := obj) (cache s) →
    three_branch_cost fuel gate = Some v →
    ∃ s', gate_cost fuel gate s = (Ret v, s') ∧ sound (obj := obj) (cache s').
Proof.
  intros Hcoh. induction fuel as [|n IH]; intros gate s v Hs Hv; [done|].
  destruct (cache s !! gate_key gate) as [w|] eqn:Hk.
  { exists s. rewrite (gate_cost_hit _ _ _ _ Hk).
    by rewrite (Hs gate (S n) v w Hk Hv). }
  assert (Hstore : ∀ s1, gate_cost_f (S n) gate s = (Ret v, s1) →
            sound (obj := obj) (cache s1) →
            ∃ s', gate_cost (S n) gate s = (Ret v, s') ∧
                  sound (obj := obj) (cache s')).
  { intros s1 Hf Hs1. eexists. split; [by apply gate_cost_miss_ret|].
    simpl. by eapply sound_insert. }
  pose proof Hv as Hv0. simpl in Hv.
  destruct (isinstance gate UGate || isinstance gate U3Gate) eqn:Hrot.
  { injection Hv as <-. apply (Hstore (tick s)); [|done].
    unfold gate_cost_f, counted, gate_cost_body.
    apply orb_true_iff in Hrot as [-> | ->]; [done|]. by case_match. }
  apply orb_false_elim in Hrot as [Hu Hu3].
  destruct (isinstance gate CXGate) eqn:Hcx.
  { injection Hv as <-. apply (Hstore (tick s)); [|done].
    unfold gate_cost_f, counted, gate_cost_body. by rewrite Hu, Hu3, Hcx. }
  destruct (definition gate) as [circuit|] eqn:Hd; simpl in Hv; [|done].
  destruct (mapM (three_branch_cost n) (operations circuit)) as [vs|] eqn:Hvs;
    simpl in Hv; [|done].
  injection Hv as <-.
  apply mapM_three_branch_cost_Some in Hvs as [Hall ->].
  destruct (map_calls_sound (gate_cost n) n IH (operations circuit) (tick s)
              Hs Hall) as (s1 & Hcalls & Hs1).
  apply (Hstore s1); [|done].
  rewrite (gate_cost_f_composite n gate circuit s); [|by unfold primitive;
    rewrite Hu, Hu3, Hcx|done].
  rewrite sum_map_map_calls, Hcalls. done.
Qed.

End Coherence.

(** ** [compute_cost] *)

Section ComputeCost.
Context `{Sdk obj}.

Lemma compute_cost_map_calls fuel (circuit : QuantumCircuit obj) s :
  compute_cost fuel circuit s
  = match map_calls (gate_cost fuel) (gates_of circuit)
            (printed "Computing cost..." s) with
    | (Ret vs, s') => (Ret (sum_list vs), s')
    | (Err e, s') => (Err e, s')
    end.
Proof.
  unfold compute_cost, bind, print, modify. rewrite sum_map_map_calls.
  unfold gates_of. by destruct (map_calls _ _ _) as [[vs|e] s'].
Qed.

Lemma gates_of_without_directives (circuit : QuantumCircuit obj) :
  gates_of (without_directives circuit) = gates_of circuit.
Proof.
  unfold gates_of, without_directives, operations. simpl.
  induction (data circuit) as [|[[g qs] cs] entries IH]; simpl; [done|].
  destruct (isinstance g Gate) eqn:Hg; simpl; [|done].
  by rewrite Hg, IH.
Qed.

Lemma filter_Permutation_bool {A} (p : A → bool) (l l' : list A) :
  l ≡ₚ l' → List.filter p l ≡ₚ List.filter p l'.
Proof.
  induction 1 as [|x l l' _ IH|x y l|l l' l'' _ IH _ IH']; simpl.
  - done.
  - destruct (p x); [by constructor|done].
  - destruct (p x), (p y); try done. apply perm_swap.
  - by etrans.
Qed.

Lemma sum_list_Permutation (vs vs' : list Z) :
  vs ≡ₚ vs' → sum_list vs = sum_list vs'.
Proof.
  unfold sum_list.
  induction 1 as [|x l l' _ IH|x y l|l l' l'' _ IH _ IH']; simpl; lia.
Qed.

Lemma gates_of_Permutation (circuit circuit' : QuantumCircuit obj) :
  data circuit' ≡ₚ data circuit → gates_of circuit' ≡ₚ gates_of circuit.
Proof.
  intros Hperm. unfold gates_of, operations.
  apply filter_Permutation_bool. by apply Permutation_map.
Qed.

Lemma compute_cost_sound fuel (circuit : QuantumCircuit obj) s :
  coherent (obj := obj) → sound (obj := obj) (cache s) →
  Forall (λ g, is_Some (three_branch_cost fuel g)) (gates_of circuit) →
  (compute_cost fuel circuit s).1
  = Ret (sum_list (map (cost_of fuel) (gates_of circuit))).
Proof.
  intros Hcoh Hs Hall. rewrite compute_cost_map_calls.
  destruct (map_calls_sound (gate_cost fuel) fuel (gate_cost_sound Hcoh fuel)
              (gates_of circuit) (printed "Computing cost..." s) Hs Hall)
    as (s' & -> & _).
  done.
Qed.

End ComputeCost.

(** C2, as stated, fails: the total depends on the order of the instruction
    list, which is the order of summation. Two gates named "pair" on two
    qubits, one of two [u3] rotations and one of three [cx]: the first one
    met fixes the cost of both. *)
Lemma compute_cost_depends_on_order :
  data swap_then_pair ≡ₚ data pair_then_swap ∧
  (compute_cost 2 pair_then_swap initial_state).1 = Ret 4%Z ∧
  (compute_cost 2 swap_then_pair initial_state).1 = Ret 60%Z.
Proof.
  split; [|split; vm_compute; reflexivity].
  exact (reverse_Permutation (data pair_then_swap)).
Qed.

(** C2, amended. [compute_cost] returns the sum of the values of the calls
    [gate_cost(g)] made, in list order, on exactly the entries of the
    instruction list that are instances of [Gate]: barrier and measurement
    entries contribute nothing, and removing them changes neither the result
    nor the state. When gates with the same name and arity have the same
    three-branch cost and the cache holds only such costs (as the empty
    cache does), the total is the sum of the three-branch costs of the
    gates, and every reordering of the instruction list gives the same
    total. *)
Theorem compute_cost_sums_gate_costs `{Sdk obj} (fuel : nat)
    (circuit : QuantumCircuit obj) (s : state) :
  compute_cost fuel circuit s
  = match map_calls (gate_cost fuel)
            (List.filter (λ g, isinstance g Gate) (operations circuit))
            (printed "Computing cost..." s) with
    | (Ret vs, s') => (Ret (sum_list vs), s')
    | (Err e, s') => (Err e, s')
    end ∧
  compute_cost fuel (without_directives circuit) s
  = compute_cost fuel circuit s ∧
  (coherent (obj := obj) → sound (obj := obj) (cache s) →
   Forall (λ g, is_Some (three_branch_cost fuel g)) (gates_of circuit) →
   (compute_cost fuel circuit s).1
   = Ret (sum_list (map (cost_of fuel) (gates_of circuit))) ∧
   ∀ circuit', data circuit' ≡ₚ data circuit →
               (compute_cost fuel circuit' s).1
               = (compute_cost fuel circuit s).1).
Proof.
  split; [apply compute_cost_map_calls|]. split.
  - by rewrite !compute_cost_map_calls, gates_of_without_directives.
  - intros Hcoh Hs Hall. split; [by apply compute_cost_sound|].
    intros circuit' Hperm. apply gates_of_Permutation in Hperm.
    rewrite !compute_cost_sound; try done.
    + f_equal. apply sum_list_Permutation. by apply Permutation_map.
    + by rewrite Hperm.
Qed.

Lemma stdgate_coherent : coherent (obj := stdgate).
Proof.
  apply coherent_injective_keys. intros g g' Hkey.
  destruct g, g'; (done || discriminate Hkey).
Qed.

Lemma compute_cost_sums_gate_costs_witness :
  (compute_cost 2 teleport initial_state).1 = Ret 41%Z ∧
  (compute_cost 2 (mkCircuit (reverse (data teleport))) initial_state).1
  = (compute_cost 2 teleport initial_state).1.
Proof.
  destruct (compute_cost_sums_gate_costs 2 teleport initial_state)
    as (_ & _ & Hcoherent).
  assert (Hall : Forall (λ g, is_Some (three_branch_cost 2 g))
                   (gates_of teleport)).
  { repeat constructor; by eexists. }
  destruct (Hcoherent stdgate_coherent sound_empty Hall) as [Hsum Horder].
  split.
  - rewrite Hsum. vm_compute. reflexivity.
  - apply Horder. simpl. apply reverse_Permutation.
Defined.

(** ** Termination *)

Section Termination.
Context `{Sdk obj}.

Lemma sum_map_stops (f : obj → M state stop Z) gs :
  Forall (λ g, ∀ s, (f g s).1 ≠ Err OutOfFuel) gs →
  ∀ total s, (sum_map f gs total s).1 ≠ Err OutOfFuel.
Proof.
  induction 1 as [|g gs Hg _ IH]; intros total s; simpl; [done|].
  unfold bind. specialize (Hg s).
  destruct (f g s) as [[v|e] s1]; simpl in *; [apply IH|done].
Qed.

(** With enough fuel for the body, a call does not run out of fuel. *)
Lemma gate_cost_stops_step n (gate : obj) :
  (∀ g', sub_gate g' gate → ∀ s, (gate_cost n g' s).1 ≠ Err OutOfFuel) →
  ∀ s, (gate_cost (S n) gate s).1 ≠ Err OutOfFuel.
Proof.
  intros Hsub s.
  destruct (gate_cost (S n) gate s) as [r s'] eqn:Hrun. simpl.
  apply gate_cost_cases in Hrun as [(w & _ & -> & _)|[_ Hrun]]; [done|].
  destruct Hrun as [(w & s1 & _ & -> & _)|(e & Hf & ->)]; [done|].
  intros [= ->].
  destruct (primitive gate) eqn:Hp.
  - revert Hf. unfold gate_cost_f, counted, gate_cost_body.
    unfold primitive in Hp. by repeat case_match.
  - destruct (definition gate) as [circuit|] eqn:Hd.
    + rewrite (gate_cost_f_composite _ _ _ _ Hp Hd) in Hf.
      eapply (sum_map_stops (gate_cost n) (operations circuit));
        [|by erewrite Hf].
      apply Forall_forall. intros g' Hin. apply Hsub.
      split; [done|]. by exists circuit.
    + by rewrite (gate_cost_f_undefined _ _ _ Hp Hd) in Hf.
Qed.

(** A budget that is enough for every gate of a list. *)
Lemma enough_fuel_for_all (P : nat → obj → Prop) (gs : list obj) :
  (∀ g n m, P n g → n ≤ m → P m g) →
  Forall (λ g, ∃ n, P n g) gs →
  ∃ n, Forall (P n) gs.
Proof.
  intros Hmono. induction 1 as [|g gs [n Hn] _ [m Hm]].
  - by exists 0.
  - exists (n `max` m). constructor.
    + apply (Hmono g n); [done|lia].
    + eapply Forall_impl; [exact Hm|]. intros g' Hg'.
      apply (Hmono g' m); [done|lia].
Qed.

Lemma gate_cost_stops (gate : obj) :
  Acc sub_gate gate →
  ∃ fuel0, ∀ fuel, fuel0 ≤ fuel →
                   ∀ s, (gate_cost fuel gate s).1 ≠ Err OutOfFuel.
Proof.
  induction 1 as [gate _ IH].
  set (P := λ n (g : obj),
         ∀ fuel, n ≤ fuel → ∀ s, (gate_cost fuel g s).1 ≠ Err OutOfFuel).
  assert (Hmono : ∀ g n m, P n g → n ≤ m → P m g).
  { intros g n m Hn Hle fuel Hfuel. apply Hn. lia. }
  assert (Hbody : ∀ n, (∀ g', sub_gate g' gate → P n g') → P (S n) gate).
  { intros n Hn [|fuel] Hfuel; [lia|].
    apply gate_cost_stops_step. intros g' Hg'. apply (Hn g' Hg'). lia. }
  destruct (primitive gate) eqn:Hp.
  { exists 1. apply (Hbody 0). by intros g' [Hg' _]; congruence. }
  destruct (definition gate) as [circuit|] eqn:Hd.
  - destruct (enough_fuel_for_all P (operations circuit) Hmono) as [n Hn].
    { apply Forall_forall. intros g' Hin. apply IH.
      split; [done|]. by exists circuit. }
    exists (S n). apply Hbody. intros g' (_ & circuit' & Hd' & Hin).
    rewrite Hd in Hd'. injection Hd' as <-.
    by eapply Forall_forall in Hn.
  - exists 1. apply (Hbody 0). intros g' (_ & circuit' & Hd' & _). congruence.
Qed.

End Termination.

Section FuelIndependence.
Context `{Sdk obj}.

Lemma sum_map_extends_calls (f f' : obj → M state stop Z) gs :
  extends_calls f f' →
  ∀ total s r s',
    sum_map f gs total s = (r, s') → r ≠ Err OutOfFuel →
    sum_map f' gs total s = (r, s').
Proof.
  intros Hff'. induction gs as [|g gs IH]; intros total s r s'; simpl; [done|].
  unfold bind. destruct (f g s) as [[v|e] s1] eqn:Hg.
  - rewrite (Hff' g s _ _ Hg) by done. apply IH.
  - intros [= <- <-] He. by rewrite (Hff' g s _ _ Hg).
Qed.

Lemma gate_cost_body_extends_calls (f f' : obj → M state stop Z) :
  extends_calls f f' →
  extends_calls (gate_cost_body f) (gate_cost_body f').
Proof.
  intros Hff' g s r s'. unfold gate_cost_body.
  repeat case_match; try done.
  unfold bind, definition_data. destruct (definition g); simpl; [|done].
  by apply sum_map_extends_calls.
Qed.

(** One more level of fuel changes no outcome other than running out. *)
Lemma gate_cost_fuel_S n : extends_calls (gate_cost n) (gate_cost (S n)).
Proof.
  induction n as [|n IH]; intros g s r s' Hrun Hr.
  - apply gate_cost_cases in Hrun as [(w & Hk & -> & ->)|[Hk Hrun]];
      [by apply gate_cost_hit|].
    destruct Hrun as [(w & s1 & [=] & _)|(e & [= <- _] & ->)]. done.
  - apply gate_cost_cases in Hrun as [(w & Hk & -> & ->)|[Hk Hrun]];
      [by apply gate_cost_hit|].
    pose proof (gate_cost_body_extends_calls _ _ IH) as Hbody.
    destruct Hrun as [(w & s1 & Hf & -> & ->)|(e & Hf & ->)].
    + apply gate_cost_miss_ret; [done|].
      unfold gate_cost_f, counted in *. by apply Hbody.
    + apply gate_cost_miss_err; [done|].
      unfold gate_cost_f, counted in *. by apply Hbody.
Qed.

Lemma gate_cost_fuel_le n m :
  n ≤ m → extends_calls (gate_cost n) (gate_cost m).
Proof.
  induction 1 as [|m _ IH]; intros g s r s' Hrun Hr; [done|].
  apply gate_cost_fuel_S; [|done]. by apply IH.
Qed.

(** The only exception that [gate_cost] raises is the [AttributeError] of
    [gate.definition.data]. *)
Lemma gate_cost_errors fuel :
  ∀ (gate : obj) s e s',
    gate_cost fuel gate s = (Err e, s') →
    e = OutOfFuel ∨ e = Raise (AttributeError "data").
Proof.
  assert (Hsum : ∀ (f : obj → M state stop Z),
            (∀ g s e s', f g s = (Err e, s') →
                         e = OutOfFuel ∨ e = Raise (AttributeError "data")) →
            ∀ gs total s e s',
              sum_map f gs total s = (Err e, s') →
              e = OutOfFuel ∨ e = Raise (AttributeError "data")).
  { intros f Hf. induction gs as [|g gs IH]; intros total s e s'; simpl;
      [done|].
    unfold bind. destruct (f g s) as [[v|e0] s1] eqn:Hg; [apply IH|].
    intros [= <- <-]. by eapply Hf. }
  induction fuel as [|n IH]; intros gate s e s' Hrun;
    apply gate_cost_cases in Hrun as [(w & _ & [=] & _)|[_ Hrun]];
    destruct Hrun as [(w & s1 & _ & [=] & _)|(e0 & Hf & [= <-])].
  - left. by injection Hf as <- _.
  - revert Hf. unfold gate_cost_f, counted, gate_cost_body.
    repeat case_match; try done.
    unfold bind, definition_data. destruct (definition gate); simpl.
    + apply Hsum, IH.
    + intros [= <- _]. by right.
Qed.

Lemma sum_map_returns (f : obj → M state stop Z) gs :
  Forall (λ g, ∀ s, ∃ v s', f g s = (Ret v, s')) gs →
  ∀ total s, ∃ v s', sum_map f gs total s = (Ret v, s').
Proof.
  induction 1 as [|g gs Hg _ IH]; intros total s; simpl; [by eexists _, _|].
  unfold bind. destruct (Hg s) as (v & s1 & ->). apply IH.
Qed.

(** When the sub-gates return, a decomposable gate returns. *)
Lemma gate_cost_returns_step n (gate : obj) :
  decomposable gate →
  (∀ g', sub_gate g' gate → ∀ s, ∃ v s', gate_cost n g' s = (Ret v, s')) →
  ∀ s, ∃ v s', gate_cost (S n) gate s = (Ret v, s').
Proof.
  intros Hdec Hsub s.
  destruct (cache s !! gate_key gate) as [w|] eqn:Hk.
  { exists w, s. by apply gate_cost_hit. }
  assert (∃ v s1, gate_cost_f (S n) gate s = (Ret v, s1)) as (v & s1 & Hf);
    [|eexists _, _; by apply gate_cost_miss_ret].
  destruct (primitive gate) eqn:Hp.
  - unfold gate_cost_f, counted, gate_cost_body.
    unfold primitive in Hp. repeat case_match; try done; by eexists _, _.
  - destruct Hdec as [Hdec|[circuit Hd]]; [congruence|].
    rewrite (gate_cost_f_composite _ _ _ _ Hp Hd).
    apply sum_map_returns, Forall_forall. intros g' Hin. apply Hsub.
    split; [done|]. by exists circuit.
Qed.

Lemma gate_cost_returns (gate : obj) :
  Acc sub_gate gate →
  (∀ g', rtc (flip sub_gate) gate g' → decomposable g') →
  ∃ fuel0, ∀ fuel, fuel0 ≤ fuel →
                   ∀ s, ∃ v s', gate_cost fuel gate s = (Ret v, s').
Proof.
  induction 1 as [gate _ IH]. intros Hdec.
  set (P := λ n (g : obj),
         ∀ fuel, n ≤ fuel → ∀ s, ∃ v s', gate_cost fuel g s = (Ret v, s')).
  assert (Hmono : ∀ g n m, P n g → n ≤ m → P m g).
  { intros g n m Hn Hle fuel Hfuel. apply Hn. lia. }
  assert (Hbody : ∀ n, (∀ g', sub_gate g' gate → P n g') → P (S n) gate).
  { intros n Hn [|fuel] Hfuel; [lia|].
    apply gate_cost_returns_step; [by apply Hdec|].
    intros g' Hg'. apply (Hn g' Hg'). lia. }
  assert (Hsubs : ∀ g', sub_gate g' gate → ∃ n, P n g').
  { intros g' Hg'. apply IH; [done|].
    intros g'' Hg''. apply Hdec. by eapply rtc_l. }
  destruct (primitive gate) eqn:Hp.
  { exists 1. apply (Hbody 0). by intros g' [Hg' _]; congruence. }
  destruct (definition gate) as [circuit|] eqn:Hd.
  - destruct (enough_fuel_for_all P (operations circuit) Hmono) as [n Hn].
    { apply Forall_forall. intros g' Hin. apply Hsubs.
      split; [done|]. by exists circuit. }
    exists (S n). apply Hbody. intros g' (_ & circuit' & Hd' & Hin).
    rewrite Hd in Hd'. injection Hd' as <-.
    by eapply Forall_forall in Hn.
  - exists 1. apply (Hbody 0). intros g' (_ & circuit' & Hd' & _). congruence.
Qed.

End FuelIndependence.

(** Finite gate trees: the decomposition relation is well-founded. *)
Lemma tree_sub_gate_height (g' g : tree) :
  sub_gate g' g → tree_height g' < tree_height g.
Proof.
  intros (_ & circuit & Hd & Hin).
  destruct g as [c nm nq [entries|]]; simpl in Hd; [|done].
  injection Hd as <-. unfold operations in Hin. simpl in *.
  apply Nat.lt_succ_r.
  induction entries as [|[[g0 qs] cs] entries IH]; simpl in *.
  - by apply elem_of_nil in Hin.
  - apply elem_of_cons in Hin as [->|Hin]; [lia|].
    specialize (IH Hin). lia.
Qed.

Lemma tree_sub_gate_wf : well_founded (sub_gate (obj := tree)).
Proof.
  apply (well_founded_lt_compat _ tree_height). apply tree_sub_gate_height.
Qed.

(** A definition that contains its own gate exhausts every budget: the call
    ends with the interpreter's recursion error. *)
Lemma gate_cost_loop_exhausts_budget (fuel : nat) :
  ∀ s, cache s !! gate_key the_loop = None →
       (gate_cost fuel the_loop s).1 = Err OutOfFuel.
Proof.
  induction fuel as [|n IH]; intros s Hk.
  - by rewrite (gate_cost_miss_err 0 the_loop s OutOfFuel s Hk).
  - specialize (IH (tick s) Hk).
    destruct (gate_cost n the_loop (tick s)) as [r s1] eqn:Hrun.
    simpl in IH. subst r.
    rewrite (gate_cost_miss_err (S n) the_loop s OutOfFuel s1 Hk); [done|].
    unfold gate_cost_f, counted, gate_cost_body, bind. simpl.
    unfold bind. by rewrite Hrun.
Qed.

Section WithinBudget.
Context `{Sdk obj}.

Lemma decomposes_within_mono n :
  ∀ m (gate : obj), n ≤ m → decomposes_within n gate → decomposes_within m gate.
Proof.
  induction n as [|n IH]; intros m gate Hle; [done|].
  destruct m as [|m]; [lia|]. simpl. intros Hn g' Hg'.
  apply (IH m); [lia|]. by apply Hn.
Qed.

(** A well-founded decomposition has a finite depth. *)
Lemma Acc_decomposes_within (gate : obj) :
  Acc sub_gate gate → ∃ n, decomposes_within n gate.
Proof.
  induction 1 as [gate _ IH].
  destruct (primitive gate) eqn:Hp.
  { exists 1. intros g' [Hg' _]. congruence. }
  destruct (definition gate) as [circuit|] eqn:Hd.
  - destruct (enough_fuel_for_all decomposes_within (operations circuit))
      as [n Hn].
    { intros g n m Hg Hle. by eapply decomposes_within_mono. }
    { apply Forall_forall. intros g' Hin. apply IH.
      split; [done|]. by exists circuit. }
    exists (S n). intros g' (_ & circuit' & Hd' & Hin).
    rewrite Hd in Hd'. injection Hd' as <-.
    by eapply Forall_forall in Hn.
  - exists 1. intros g' (_ & circuit' & Hd' & _). congruence.
Qed.

(** Within the budget, the call does not exhaust it. *)
Lemma gate_cost_stops_within fuel :
  ∀ (gate : obj) s,
    decomposes_within fuel gate → (gate_cost fuel gate s).1 ≠ Err OutOfFuel.
Proof.
  induction fuel as [|n IH]; intros gate s Hdepth; [done|].
  apply gate_cost_stops_step. intros g' Hg' s0. apply IH. by apply Hdepth.
Qed.

Lemma gate_cost_returns_within fuel :
  ∀ (gate : obj) s,
    decomposes_within fuel gate →
    (∀ g', rtc (flip sub_gate) gate g' → decomposable g') →
    ∃ v s', gate_cost fuel gate s = (Ret v, s').
Proof.
  induction fuel as [|n IH]; intros gate s Hdepth Hdec; [done|].
  apply gate_cost_returns_step; [by apply Hdec|].
  intros g' Hg' s0. apply IH; [by apply Hdepth|].
  intros g'' Hreach. apply Hdec. by eapply rtc_l.
Qed.

End WithinBudget.

(** The chain of [n] user gates above a [cx]. *)
Lemma chain_sub_gate (n : nat) (g' : tree) :
  sub_gate g' (chain n) → ∃ m, n = S m ∧ g' = chain m.
Proof.
  intros (Hp & circuit & Hd & Hin). destruct n as [|m]; [done|].
  exists m. split; [done|]. injection Hd as <-.
  unfold operations in Hin. simpl in Hin.
  apply elem_of_cons in Hin as [->|Hin]; [done|].
  by apply elem_of_nil in Hin.
Qed.

Lemma chain_decomposable (n : nat) (g' : tree) :
  rtc (flip sub_gate) (chain n) g' → decomposable g'.
Proof.
  intros Hreach.
  assert (∃ k, g' = chain k) as [k ->].
  { revert g' Hreach. apply rtc_ind_r; [by exists n|].
    intros y z _ Hsub [k ->].
    apply chain_sub_gate in Hsub as (m & _ & ->). by exists m. }
  destruct k as [|k]; [by left|]. right. by eexists.
Qed.

(** Whatever the budget, a chain with as many levels exhausts it. *)
Lemma gate_cost_chain_exhausts (n : nat) :
  ∀ s, (∀ k, cache s !! gate_key (chain k) = None) →
       (gate_cost n (chain n) s).1 = Err OutOfFuel.
Proof.
  induction n as [|n IH]; intros s Hk.
  - by rewrite (gate_cost_miss_err 0 (chain 0) s OutOfFuel s (Hk 0)).
  - specialize (IH (tick s) Hk).
    destruct (gate_cost n (chain n) (tick s)) as [r s1] eqn:Hrun.
    simpl in IH. subst r.
    rewrite (gate_cost_miss_err (S n) (chain (S n)) s OutOfFuel s1 (Hk (S n)));
      [done|].
    rewrite (gate_cost_f_composite n (chain (S n))
               (mkCircuit [on [0; 1] (chain n)]) s); [|done|done].
    unfold operations. simpl. unfold bind. by rewrite Hrun.
Qed.

(** C9, as stated, fails: a well-founded decomposition does not make
    [gate_cost] total, because the recursion budget is fixed by the
    interpreter and not by the gate. The chain of 500 user gates above a
    [cx] is finite and acyclic and every gate of it is decomposable; with a
    budget of 400 nested calls the call on it ends with the recursion
    error, with a budget of 501 it returns 10. *)
Lemma gate_cost_exhausts_budget_on_deep_chain :
  Acc sub_gate (chain 500) ∧
  (∀ g', rtc (flip sub_gate) (chain 500) g' → decomposable g') ∧
  (gate_cost 400 (chain 500) initial_state).1 = Err OutOfFuel ∧
  (gate_cost 500 (chain 500) initial_state).1 = Err OutOfFuel ∧
  (gate_cost 501 (chain 500) initial_state).1 = Ret 10%Z.
Proof.
  split; [apply tree_sub_gate_wf|].
  split; [apply chain_decomposable|].
  split; [vm_compute; reflexivity|].
  split; [|vm_compute; reflexivity].
  apply gate_cost_chain_exhausts. intros k. apply lookup_empty.
Qed.

(** C9, amended. [gate_cost] is total within the recursion budget. When the
    decomposition of the gate is less deep than the budget that the call
    runs with, the call ends, in every state, with a value or with the
    [AttributeError] of a gate that has no decomposition, and with a value
    when every gate reached by decomposing is a primitive or has a
    definition; every larger budget gives the same outcome and the same
    final state. A well-founded decomposition has a finite depth, so that
    some budget is enough for it; a budget that the decomposition exceeds
    may end the call with the recursion error instead. *)
Theorem gate_cost_total_within_budget `{Sdk obj} (fuel : nat) (gate : obj)
    (s : state) :
  (decomposes_within fuel gate →
   ((∃ v, (gate_cost fuel gate s).1 = Ret v) ∨
    (gate_cost fuel gate s).1 = Err (Raise (AttributeError "data"))) ∧
   (∀ fuel', fuel ≤ fuel' → gate_cost fuel' gate s = gate_cost fuel gate s) ∧
   ((∀ g', rtc (flip sub_gate) gate g' → decomposable g') →
    ∃ v, (gate_cost fuel gate s).1 = Ret v)) ∧
  (Acc sub_gate gate → ∃ budget, decomposes_within budget gate).
Proof.
  split; [|apply Acc_decomposes_within].
  intros Hdepth.
  pose proof (gate_cost_stops_within fuel gate s Hdepth) as Hne.
  split; [|split].
  - destruct (gate_cost fuel gate s) as [[v|e] s'] eqn:Hrun; simpl in *.
    + left. by exists v.
    + right. by destruct (gate_cost_errors _ _ _ _ _ Hrun) as [->| ->].
  - intros fuel' Hle.
    destruct (gate_cost fuel gate s) as [r s'] eqn:Hrun.
    by apply (gate_cost_fuel_le fuel fuel' Hle gate s r s').
  - intros Hdec.
    destruct (gate_cost_returns_within fuel gate s Hdepth Hdec)
      as (v & s' & ->).
    by exists v.
Qed.

Lemma std_swap_acc : Acc (sub_gate (obj := stdgate)) std_swap.
Proof.
  constructor. intros g' (_ & circuit & [= <-] & Hin).
  assert (g' = std_cx) as ->.
  { unfold operations in Hin. simpl in Hin.
    repeat (apply elem_of_cons in Hin as [->|Hin]; [done|]).
    by apply elem_of_nil in Hin. }
  constructor. by intros g'' [Hp _].
Qed.

Lemma std_swap_decomposable (g' : stdgate) :
  rtc (flip sub_gate) std_swap g' → decomposable g'.
Proof.
  intros Hreach.
  assert (g' = std_swap ∨ g' = std_cx) as [-> | ->].
  { revert g' Hreach. apply rtc_ind_r; [by left|].
    intros y z _ (Hp & circuit & Hd & Hin) IH.
    right. destruct IH as [-> | ->]; [|done].
    injection Hd as <-. unfold operations in Hin. simpl in Hin.
    repeat (apply elem_of_cons in Hin as [->|Hin]; [done|]).
    by apply elem_of_nil in Hin. }
  - right. by eexists.
  - by left.
Qed.

Lemma gate_cost_total_within_budget_witness :
  (∀ s, ((∃ v, (gate_cost 2 std_swap s).1 = Ret v) ∨
         (gate_cost 2 std_swap s).1 = Err (Raise (AttributeError "data"))) ∧
        (∀ fuel', 2 ≤ fuel' → gate_cost fuel' std_swap s
                              = gate_cost 2 std_swap s) ∧
        ∃ v, (gate_cost 2 std_swap s).1 = Ret v) ∧
  ∃ budget, decomposes_within budget std_swap.
Proof.
  assert (Hdepth : decomposes_within 2 std_swap).
  { intros g' (_ & circuit & [= <-] & Hin) g'' [Hp _].
    unfold operations in Hin. simpl in Hin.
    repeat (apply elem_of_cons in Hin as [->|Hin]; [done|]).
    by apply elem_of_nil in Hin. }
  split.
  - intros s.
    destruct (proj1 (gate_cost_total_within_budget 2 std_swap s) Hdepth)
      as (Hends & Hsame & Hvalue).
    split; [exact Hends|]. split; [exact Hsame|].
    exact (Hvalue std_swap_decomposable).
  - exact (proj2 (gate_cost_total_within_budget 0 std_swap initial_state)
             std_swap_acc).
Defined.

(** ** The job utilities *)

Section JobFacts.
Context `{Cloud world provider job}.

Lemma try_except_returns {A} (m : M world exn A) (h : exn → M world exn A)
    w v w' :
  m w = (Ret v, w') → try_except m h w = (Ret v, w').
Proof. intros Hm. unfold try_except. by rewrite Hm. Qed.

Lemma try_except_handles {A} (m : M world exn A) (h : exn → M world exn A)
    w e w' :
  m w = (Err e, w') → try_except m h w = h e w'.
Proof. intros Hm. unfold try_except. by rewrite Hm. Qed.

Lemma bind_raises {A B} (m : M world exn A) (k : A → M world exn B) w e w' :
  m w = (Err e, w') → bind m k w = (Err e, w').
Proof. intros Hm. unfold bind. by rewrite Hm. Qed.

(** What the [try] block of [get_job_urls] returns is a 2-tuple. *)
Lemma get_job_urls_try_pair (j : job_ref job) w v w' :
  get_job_urls_try j w = (Ret v, w') → ∃ a b, v = PyTuple [a; b].
Proof.
  unfold get_job_urls_try, bind.
  repeat case_match; try done; intros [= <- _]; by eexists _, _.
Qed.

End JobFacts.

(** C8. The job utilities swallow every exception. If the retrieval (the
    [try] block) raises, at any of its steps, [get_job] returns [None] and
    [get_job_urls] returns [(None, None)]; so neither ever propagates an
    exception. In particular an exception of [get_provider()] gives these
    results. *)
Theorem job_utilities_swallow_exceptions `{Cloud world provider job}
    (job_id : string) (j : job_ref job) (w w' : world) (e : exn) :
  (get_job_try job_id w = (Err e, w') →
   get_job job_id w = (Ret None, w')) ∧
  (get_job_urls_try j w = (Err e, w') →
   get_job_urls j w = (Ret (PyTuple [PyNone; PyNone]), w')) ∧
  (get_provider w = (Err e, w') →
   get_job job_id w = (Ret None, w') ∧
   get_job_urls (JobId job_id) w = (Ret (PyTuple [PyNone; PyNone]), w')) ∧
  (∀ e', (get_job job_id w).1 ≠ Err e' ∧ (get_job_urls j w).1 ≠ Err e').
Proof.
  split; [|split; [|split]].
  - intros Htry. unfold get_job.
    by rewrite (try_except_handles _ _ _ _ _ Htry).
  - intros Htry. unfold get_job_urls.
    by rewrite (try_except_handles _ _ _ _ _ Htry).
  - intros Hp. split.
    + unfold get_job. erewrite try_except_handles; [done|].
      unfold get_job_try. by apply bind_raises.
    + unfold get_job_urls. erewrite try_except_handles; [done|].
      unfold get_job_urls_try, bind, ret. by rewrite Hp.
  - intros e'. unfold get_job, get_job_urls, try_except. split.
    + by destruct (get_job_try job_id w) as [[v|e0] w0].
    + by destruct (get_job_urls_try j w) as [[v|e0] w0].
Qed.

Lemma job_utilities_swallow_exceptions_witness :
  (get_job "job-1" offline).1 = Ret None ∧
  (get_job_urls (JobId "job-2") online).1 = Ret (PyTuple [PyNone; PyNone]) ∧
  (get_job_urls (JobId "job-1") offline).1 = Ret (PyTuple [PyNone; PyNone]).
Proof.
  destruct (job_utilities_swallow_exceptions "job-1" (JobId "job-2")
              offline (get_job_try "job-1" offline).2
              (OtherException "IBMQAccountCredentialsNotFound"))
    as (Hjob & _ & Hprovider & _).
  destruct (job_utilities_swallow_exceptions "job-2" (JobId "job-2")
              online (get_job_urls_try (JobId "job-2") online).2
              (KeyError "url"))
    as (_ & Hurls & _ & _).
  split; [|split].
  - rewrite Hjob; [reflexivity|]. vm_compute. reflexivity.
  - rewrite Hurls; [reflexivity|]. vm_compute. reflexivity.
  - destruct Hprovider as [_ ->]; [|reflexivity]. vm_compute. reflexivity.
Defined.

Lemma getitem_found {world} (before after : list (string * pyval))
    (key : string) (x : pyval) (w : world) :
  key ∉ before.*1 →
  getitem (PyDict (before ++ (key, x) :: after)) key w = (Ret x, w).
Proof.
  intros Hfresh. unfold getitem.
  assert (Hfind : snd <$> list_find (λ kv : string * pyval, kv.1 = key)
                    (before ++ (key, x) :: after) = Some (key, x)).
  { induction before as [|[k y] before IH]; simpl.
    - by rewrite decide_True.
    - apply not_elem_of_cons in Hfresh as [Hne Hfresh]. simpl in Hne.
      rewrite decide_False by (simpl; congruence).
      specialize (IH Hfresh).
      destruct (list_find _ (before ++ _)) as [[i kv]|]; simpl in *; [|done].
      done. }
  destruct (list_find _ _) as [[i [k y]]|]; simpl in Hfind; [|done].
  by injection Hfind as -> ->.
Qed.

(** C10. On every path [get_job_urls] returns a tuple of exactly two
    components, never a value of the declared type (a triple starting with a
    bool). On success, when the job id is obtained, both providers are
    returned and both responses are dicts with a 'url' entry, the pair is
    [(download_url, result_url)]: the 'url' entry of the download response,
    then the 'url' entry of the result response. On every other path, a
    step that raises or a response without 'url', it is [(None, None)]. *)
Theorem get_job_urls_returns_pair `{Cloud world provider job}
    (j : job_ref job) (w : world) :
  (∃ a b, (get_job_urls j w).1 = Ret (PyTuple [a; b]) ∧
          has_declared_type (PyTuple [a; b]) = false) ∧
  (∀ job_id w0 p w1 before download_url after w2
     p' w3 before' result_url after' w4,
     match j with
     | JobObject jo => job_job_id jo w
     | JobId job_id => (Ret job_id, w)
     end = (Ret job_id, w0) →
     get_provider w0 = (Ret p, w1) →
     api_download_url p job_id w1
     = (Ret (PyDict (before ++ ("url", download_url) :: after)), w2) →
     "url" ∉ before.*1 →
     get_provider w2 = (Ret p', w3) →
     api_result_url p' job_id w3
     = (Ret (PyDict (before' ++ ("url", result_url) :: after')), w4) →
     "url" ∉ before'.*1 →
     get_job_urls j w = (Ret (PyTuple [download_url; result_url]), w4)) ∧
  get_job_urls j w
  = match match j with
          | JobObject jo => job_job_id jo w
          | JobId job_id => (Ret job_id, w)
          end with
    | (Err _, w0) => (Ret (PyTuple [PyNone; PyNone]), w0)
    | (Ret job_id, w0) =>
      match get_provider w0 with
      | (Err _, w1) => (Ret (PyTuple [PyNone; PyNone]), w1)
      | (Ret p, w1) =>
        match api_download_url p job_id w1 with
        | (Err _, w2) => (Ret (PyTuple [PyNone; PyNone]), w2)
        | (Ret response, w2) =>
          match getitem response "url" w2 with
          | (Err _, w2') => (Ret (PyTuple [PyNone; PyNone]), w2')
          | (Ret download_url, w2') =>
            match get_provider w2' with
            | (Err _, w3) => (Ret (PyTuple [PyNone; PyNone]), w3)
            | (Ret p', w3) =>
              match api_result_url p' job_id w3 with
              | (Err _, w4) => (Ret (PyTuple [PyNone; PyNone]), w4)
              | (Ret response', w4) =>
                match getitem response' "url" w4 with
                | (Err _, w4') => (Ret (PyTuple [PyNone; PyNone]), w4')
                | (Ret result_url, w4') =>
                    (Ret (PyTuple [download_url; result_url]), w4')
                end
              end
            end
          end
        end
      end
    end.
Proof.
  split; [|split].
  - unfold get_job_urls, try_except.
    destruct (get_job_urls_try j w) as [[v|e] w'] eqn:Htry; simpl.
    + apply get_job_urls_try_pair in Htry as (a & b & ->).
      exists a, b. split; [done|]. by destruct a.
    + by exists PyNone, PyNone.
  - intros job_id w0 p w1 before download_url after w2 p' w3 before'
      result_url after' w4 Hid Hp Hd Hfresh Hp' Hr Hfresh'.
    unfold get_job_urls, try_except, get_job_urls_try, bind.
    assert (Hid' : match j with
                   | JobObject jo => job_job_id jo
                   | JobId job_id0 => ret job_id0
                   end w = (Ret job_id, w0)) by (by destruct j).
    rewrite Hid', Hp, Hd, (getitem_found _ _ _ _ _ Hfresh), Hp', Hr,
      (getitem_found _ _ _ _ _ Hfresh').
    done.
  - unfold get_job_urls, try_except, get_job_urls_try, bind, ret.
    destruct j as [job_id|jo]; repeat case_match; by simplify_eq.
Qed.

Lemma get_job_urls_returns_pair_witness :
  let w1 := (get_provider (H := demo_cloud) online).2 in
  let w3 := (get_provider (H := demo_cloud) w1).2 in
  get_job_urls (H := demo_cloud) (JobId "job-1") online
  = (Ret (PyTuple [PyStr "https://cloud.example/download";
                   PyStr "https://cloud.example/result"]), w3).
Proof.
  intros w1 w3.
  assert (Hfresh : "url" ∉ [("id", PyStr "job-1")].*1).
  { simpl. apply not_elem_of_cons. split; [done|apply not_elem_of_nil]. }
  exact (proj1 (proj2 (get_job_urls_returns_pair (H := demo_cloud)
                         (JobId "job-1") online))
           "job-1" online tt w1
           [("id", PyStr "job-1")] (PyStr "https://cloud.example/download") []
           w1 tt w3
           [("id", PyStr "job-1")] (PyStr "https://cloud.example/result") []
           w3 eq_refl eq_refl eq_refl Hfresh eq_refl eq_refl Hfresh).
Defined.

Example get_job_urls_online :
  (get_job_urls (JobId "job-1") online).1
  = Ret (PyTuple [PyStr "https://cloud.example/download";
                  PyStr "https://cloud.example/result"]).
Proof. vm_compute. reflexivity. Qed.

(** * Further properties of the cost functions *)

Section Frame.
Context `{Sdk obj}.

Lemma sum_map_stdout (f : obj → M state stop Z) gs :
  (∀ g s, stdout (f g s).2 = stdout s) →
  ∀ total s, stdout (sum_map f gs total s).2 = stdout s.
Proof.
  intros Hf. induction gs as [|g gs IH]; intros total s; simpl; [done|].
  unfold bind. specialize (Hf g s).
  destruct (f g s) as [[v|e] s1]; simpl in *; [|done].
  by rewrite IH.
Qed.

Lemma gate_cost_stdout fuel :
  ∀ (gate : obj) s, stdout (gate_cost fuel gate s).2 = stdout s.
Proof.
  induction fuel as [|n IH]; intros gate s;
    destruct (gate_cost _ gate s) as [r s'] eqn:Hrun; simpl;
    apply gate_cost_cases in Hrun as [(w & _ & _ & ->)|[_ Hrun]]; try done.
  - destruct Hrun as [(w & s1 & [=] & _)|(e & [= _ <-] & _)]. done.
  - assert (Hbody : stdout (gate_cost_f (S n) gate s).2 = stdout s).
    { unfold gate_cost_f, counted, gate_cost_body.
      repeat case_match; try done.
      unfold bind, definition_data.
      destruct (definition gate) as [circuit|]; simpl; [|done].
      by rewrite (sum_map_stdout (gate_cost n)). }
    destruct Hrun as [(w & s1 & Hf & _ & ->)|(e & Hf & _)];
      by rewrite Hf in Hbody.
Qed.

Lemma sum_map_same (f : obj → M state stop Z) gs :
  (∀ g s t, cache s = cache t → same_outcome (f g s) (f g t)) →
  ∀ total s t,
    cache s = cache t →
    same_outcome (sum_map f gs total s) (sum_map f gs total t).
Proof.
  intros Hf. induction gs as [|g gs IH]; intros total s t Hst; simpl;
    [done|].
  unfold bind. destruct (Hf g s t Hst) as [Hr Hc].
  destruct (f g s) as [[v|e] s1], (f g t) as [[v'|e'] t1]; simpl in *;
    simplify_eq; [by apply IH|done].
Qed.

Lemma gate_cost_f_same n (gate : obj) s t :
  (∀ g s t, cache s = cache t →
            same_outcome (gate_cost n g s) (gate_cost n g t)) →
  cache s = cache t →
  same_outcome (gate_cost_f (S n) gate s) (gate_cost_f (S n) gate t).
Proof.
  intros IH Hst. unfold gate_cost_f, counted, gate_cost_body.
  repeat case_match; try done.
  unfold bind, definition_data.
  destruct (definition gate) as [circuit|]; simpl; [|done].
  by apply sum_map_same.
Qed.

(** The cache is all that [gate_cost] reads of the state. *)
Lemma gate_cost_same fuel :
  ∀ (gate : obj) s t,
    cache s = cache t →
    same_outcome (gate_cost fuel gate s) (gate_cost fuel gate t).
Proof.
  induction fuel as [|n IH]; intros gate s t Hst.
  - destruct (cache s !! gate_key gate) as [w|] eqn:Hk.
    + rewrite (gate_cost_hit 0 gate s w Hk).
      rewrite Hst in Hk. by rewrite (gate_cost_hit 0 gate t w Hk).
    + rewrite (gate_cost_miss_err 0 gate s OutOfFuel s Hk eq_refl).
      rewrite Hst in Hk.
      by rewrite (gate_cost_miss_err 0 gate t OutOfFuel t Hk eq_refl).
  - destruct (cache s !! gate_key gate) as [w|] eqn:Hk.
    + rewrite (gate_cost_hit _ gate s w Hk).
      rewrite Hst in Hk. by rewrite (gate_cost_hit _ gate t w Hk).
    + pose proof Hk as Hk'. rewrite Hst in Hk'.
      destruct (gate_cost_f_same n gate s t IH Hst) as [Hr Hc].
      destruct (gate_cost_f (S n) gate s) as [[v|e] s1] eqn:Hs,
               (gate_cost_f (S n) gate t) as [[v'|e'] t1] eqn:Ht;
        cbn [fst snd] in *; simplify_eq.
      * rewrite (gate_cost_miss_ret _ _ _ _ _ Hk Hs),
          (gate_cost_miss_ret _ _ _ _ _ Hk' Ht).
        split; [done|]. simpl. by rewrite Hc.
      * by rewrite (gate_cost_miss_err _ _ _ _ _ Hk Hs),
          (gate_cost_miss_err _ _ _ _ _ Hk' Ht).
Qed.

Lemma map_calls_extends (f : obj → M state stop Z) :
  (∀ g s, cache s ⊆ cache (f g s).2) →
  ∀ gs s, cache s ⊆ cache (map_calls f gs s).2.
Proof.
  intros Hf. induction gs as [|g gs IH]; intros s; simpl; [done|].
  unfold bind. specialize (Hf g s).
  destruct (f g s) as [[v|e] s1]; simpl in *; [|done].
  specialize (IH s1).
  destruct (map_calls f gs s1) as [[vs|e] s2]; simpl in *; by etrans.
Qed.

(** Calls that returned are answered from any larger cache. *)
Lemma map_calls_replay fuel fuel' (gs : list obj) :
  ∀ s vs s1 s2,
    map_calls (gate_cost fuel) gs s = (Ret vs, s1) →
    cache s1 ⊆ cache s2 →
    map_calls (gate_cost fuel') gs s2 = (Ret vs, s2).
Proof.
  induction gs as [|g gs IH]; intros s vs s1 s2; simpl.
  - by intros [= <- _] _.
  - unfold bind.
    destruct (gate_cost fuel g s) as [[v|e] sa] eqn:Hg; [|done].
    destruct (map_calls (gate_cost fuel) gs sa) as [[ws|e] sb] eqn:Hgs;
      [|done].
    intros [= <- <-] Hsub.
    assert (Hk : cache s2 !! gate_key g = Some v).
    { apply (lookup_weaken (cache sa)).
      - by eapply gate_cost_ret_cached.
      - etrans; [|exact Hsub].
        pose proof (map_calls_extends (gate_cost fuel) (gate_cost_extends fuel)
                      gs sa) as Hext.
        by rewrite Hgs in Hext. }
    rewrite (gate_cost_hit fuel' g s2 v Hk).
    by rewrite (IH sa ws sb s2 Hgs Hsub).
Qed.

End Frame.

Section NonNegative.
Context `{Sdk obj}.

Lemma sum_map_nonneg (f : obj → M state stop Z) gs :
  (∀ g s r s', nonneg_cache (cache s) → f g s = (r, s') →
               nonneg_cache (cache s') ∧ ∀ v, r = Ret v → (0 ≤ v)%Z) →
  ∀ total s r s',
    (0 ≤ total)%Z → nonneg_cache (cache s) →
    sum_map f gs total s = (r, s') →
    nonneg_cache (cache s') ∧ ∀ v, r = Ret v → (0 ≤ v)%Z.
Proof.
  intros Hf. induction gs as [|g gs IH]; intros total s r s' Htotal Hs; simpl.
  - intros [= <- <-]. split; [done|]. by intros v [= <-].
  - unfold bind. destruct (f g s) as [[v|e] s1] eqn:Hg.
    + destruct (Hf g s _ _ Hs Hg) as [Hs1 Hv].
      apply IH; [|done]. specialize (Hv v eq_refl). lia.
    + intros [= <- <-]. destruct (Hf g s _ _ Hs Hg) as [Hs1 _]. done.
Qed.

Lemma gate_cost_nonneg_cache fuel :
  ∀ (gate : obj) s r s',
    nonneg_cache (cache s) → gate_cost fuel gate s = (r, s') →
    nonneg_cache (cache s') ∧ ∀ v, r = Ret v → (0 ≤ v)%Z.
Proof.
  induction fuel as [|n IH]; intros gate s r s' Hs Hrun;
    apply gate_cost_cases in Hrun as [(w & Hk & -> & ->)|[Hk Hrun]].
  - split; [done|]. intros v [= <-]. by apply (map_Forall_lookup_1 _ _ _ _ Hs Hk).
  - destruct Hrun as [(w & s1 & [=] & _)|(e & [= _ <-] & ->)]. done.
  - split; [done|]. intros v [= <-]. by apply (map_Forall_lookup_1 _ _ _ _ Hs Hk).
  - assert (Hbody : ∀ r1 s1, gate_cost_f (S n) gate s = (r1, s1) →
              nonneg_cache (cache s1) ∧ ∀ v, r1 = Ret v → (0 ≤ v)%Z).
    { intros r1 s1. unfold gate_cost_f, counted, gate_cost_body.
      repeat case_match;
        try (intros [= <- <-]; split; [done|]; intros v [= <-]; lia).
      unfold bind, definition_data.
      destruct (definition gate) as [circuit|]; simpl.
      - by apply (sum_map_nonneg (gate_cost n) _ IH).
      - intros [= <- <-]. done. }
    destruct Hrun as [(w & s1 & Hf & -> & ->)|(e & Hf & ->)].
    + destruct (Hbody _ _ Hf) as [Hs1 Hv]. specialize (Hv w eq_refl).
      split; [|by intros v [= <-]].
      simpl. by apply map_Forall_insert_2.
    + by destruct (Hbody _ _ Hf) as [Hs1 _].
Qed.



End NonNegative.

(** X1. Costs are never negative: when the cache holds no negative cost, as
    the empty cache does, a value that [gate_cost] returns is at least 0 and
    the cache it leaves holds no negative cost; so is the total of
    [compute_cost]. *)
Theorem gate_cost_nonnegative `{Sdk obj} (fuel : nat) (gate : obj)
    (circuit : QuantumCircuit obj) (s : state) :
  nonneg_cache (cache s) →
  (∀ v, (gate_cost fuel gate s).1 = Ret v → (0 ≤ v)%Z) ∧
  nonneg_cache (cache (gate_cost fuel gate s).2) ∧
  (∀ v, (compute_cost fuel circuit s).1 = Ret v → (0 ≤ v)%Z).
Proof.
  intros Hs.
  destruct (gate_cost fuel gate s) as [r s'] eqn:Hrun.
  destruct (gate_cost_nonneg_cache fuel gate s r s' Hs Hrun) as [Hs' Hv].
  split; [done|]. split; [done|].
  unfold compute_cost, bind, print, modify.
  destruct (sum_map _ _ _ _) as [r2 s2] eqn:Hsum.
  by apply (sum_map_nonneg (gate_cost fuel) _ (gate_cost_nonneg_cache fuel))
    in Hsum as [_ Hv2].
Qed.

Lemma gate_cost_nonnegative_witness :
  (∀ v, (gate_cost 2 u_u_cx initial_state).1 = Ret v → (0 ≤ v)%Z) ∧
  nonneg_cache (cache (gate_cost 2 u_u_cx initial_state).2) ∧
  (∀ v, (compute_cost 2 bell initial_state).1 = Ret v → (0 ≤ v)%Z).
Proof.
  apply (gate_cost_nonnegative 2 u_u_cx bell initial_state).
  apply map_Forall_empty.
Defined.



(** X3. Memoization is transparent when keys are coherent. If gates with the
    same name and arity have the same three-branch cost and the cache holds
    only three-branch costs, then on a gate whose three-branch cost is [v]
    the memoized [gate_cost] returns [v], and the cache it leaves again
    holds only three-branch costs. *)
Theorem gate_cost_agrees_with_three_branch_cost `{Sdk obj} (fuel : nat)
    (gate : obj) (s : state) (v : Z) :
  coherent (obj := obj) →
  sound (obj := obj) (cache s) →
  three_branch_cost fuel gate = Some v →
  (gate_cost fuel gate s).1 = Ret v ∧
  sound (obj := obj) (cache (gate_cost fuel gate s).2).
Proof.
  intros Hcoh Hs Hv.
  by destruct (gate_cost_sound Hcoh fuel gate s v Hs Hv) as (s' & -> & Hs').
Qed.

Lemma gate_cost_agrees_with_three_branch_cost_witness :
  (gate_cost 2 std_swap initial_state).1 = Ret 30%Z ∧
  sound (obj := stdgate) (cache (gate_cost 2 std_swap initial_state).2).
Proof.
  exact (gate_cost_agrees_with_three_branch_cost 2 std_swap initial_state
           30%Z stdgate_coherent sound_empty eq_refl).
Defined.

(** X4. Repeating [compute_cost] costs nothing. Once [compute_cost] has
    returned a total for a circuit, a later call on the same circuit, in the
    state it left or in any state whose cache contains that one, returns the
    same total from the cache alone: the body of [gate_cost] is not entered
    and the cache does not change. *)
Theorem compute_cost_repeated `{Sdk obj} (fuel fuel' : nat)
    (circuit : QuantumCircuit obj) (s s1 s2 : state) (total : Z) :
  compute_cost fuel circuit s = (Ret total, s1) →
  cache s1 ⊆ cache s2 →
  (compute_cost fuel' circuit s2).1 = Ret total ∧
  cache (compute_cost fuel' circuit s2).2 = cache s2 ∧
  calls (compute_cost fuel' circuit s2).2 = calls s2.
Proof.
  rewrite !compute_cost_map_calls. intros Hrun Hsub.
  destruct (map_calls (gate_cost fuel) (gates_of circuit)
              (printed "Computing cost..." s)) as [[vs|e] sa] eqn:Hcalls;
    [|done].
  injection Hrun as <- <-.
  by rewrite (map_calls_replay fuel fuel' (gates_of circuit) _ vs sa
                (printed "Computing cost..." s2) Hcalls Hsub).
Qed.

Lemma compute_cost_repeated_witness :
  let s1 := (compute_cost 2 pair_then_swap initial_state).2 in
  (compute_cost 0 pair_then_swap s1).1 = Ret 4%Z ∧
  cache (compute_cost 0 pair_then_swap s1).2 = cache s1 ∧
  calls (compute_cost 0 pair_then_swap s1).2 = calls s1.
Proof.
  intros s1.
  assert (Hrun : compute_cost 2 pair_then_swap initial_state = (Ret 4%Z, s1))
    by (vm_compute; reflexivity).
  exact (compute_cost_repeated 2 0 pair_then_swap initial_state s1 s1 4%Z
           Hrun (reflexivity _)).
Defined.

(** X5. [compute_cost] prints the line 'Computing cost...' exactly once,
    before any cost is computed and whether or not it then raises; nothing
    else is printed. On a circuit without gate entries (empty, or only
    barriers and measurements) it returns 0 and leaves the cache as it
    was. *)
Theorem compute_cost_prints_once `{Sdk obj} (fuel : nat)
    (circuit : QuantumCircuit obj) (s : state) :
  stdout (compute_cost fuel circuit s).2 = stdout s ++ ["Computing cost..."] ∧
  (Forall (λ g, isinstance g Gate = false) (operations circuit) →
   (compute_cost fuel circuit s).1 = Ret 0%Z ∧
   cache (compute_cost fuel circuit s).2 = cache s).
Proof.
  split.
  - unfold compute_cost, bind, print, modify.
    by rewrite (sum_map_stdout (gate_cost fuel) _ (gate_cost_stdout fuel)).
  - intros Hnone. rewrite compute_cost_map_calls.
    assert (gates_of circuit = []) as ->; [|done].
    unfold gates_of. induction Hnone as [|g gs Hg _ IH]; simpl; [done|].
    by rewrite Hg.
Qed.

Lemma compute_cost_prints_once_witness :
  (compute_cost 1 only_directives initial_state).1 = Ret 0%Z ∧
  cache (compute_cost 1 only_directives initial_state).2 = ∅.
Proof.
  apply (proj2 (compute_cost_prints_once 1 only_directives initial_state)).
  repeat constructor.
Defined.

Section Composition.
Context `{Sdk obj}.

Lemma sum_map_app (f : obj → M state stop Z) gs gs' :
  ∀ total s,
    sum_map f (gs ++ gs') total s
    = match sum_map f gs total s with
      | (Ret v, s') => sum_map f gs' v s'
      | (Err e, s') => (Err e, s')
      end.
Proof.
  induction gs as [|g gs IH]; intros total s; simpl; [done|].
  unfold bind. destruct (f g s) as [[v|e] s1]; [apply IH|done].
Qed.

Lemma sum_map_shift (f : obj → M state stop Z) gs total s :
  sum_map f gs total s
  = match sum_map f gs 0%Z s with
    | (Ret v, s') => (Ret (total + v)%Z, s')
    | (Err e, s') => (Err e, s')
    end.
Proof.
  rewrite !sum_map_map_calls.
  by destruct (map_calls f gs s) as [[vs|e] s'].
Qed.

Lemma gates_of_concat (first second : QuantumCircuit obj) :
  gates_of (concat first second) = gates_of first ++ gates_of second.
Proof.
  unfold gates_of, concat, operations. simpl.
  by rewrite map_app, List.filter_app.
Qed.

Lemma has_cx_Exists (circuit : QuantumCircuit obj) :
  has_cx circuit = true ↔
  Exists (λ g, isinstance g CXGate = true) (operations circuit).
Proof.
  unfold has_cx. rewrite existsb_exists, Exists_exists.
  split; intros (g & Hin & Hg); exists g; split; try done;
    by apply list_elem_of_In.
Qed.

End Composition.

(** X6. Costs compose along concatenation, through the cache. If
    [compute_cost] returns [v1] on a first circuit and then, in the state it
    left, [v2] on a second one, then on the concatenation of the two it
    returns [v1 + v2] and leaves the same cache; if it raises on the first
    circuit, it raises the same on the concatenation, in the same state. *)
Theorem compute_cost_concat `{Sdk obj} (fuel : nat)
    (first second : QuantumCircuit obj) (s s1 : state) :
  (∀ v1 v2 s2,
     compute_cost fuel first s = (Ret v1, s1) →
     compute_cost fuel second s1 = (Ret v2, s2) →
     (compute_cost fuel (concat first second) s).1 = Ret (v1 + v2)%Z ∧
     cache (compute_cost fuel (concat first second) s).2 = cache s2) ∧
  (∀ e, compute_cost fuel first s = (Err e, s1) →
        compute_cost fuel (concat first second) s = (Err e, s1)).
Proof.
  unfold compute_cost, bind, print, modify.
  change (List.filter (λ g, isinstance g Gate)
            (operations (concat first second)))
    with (gates_of (concat first second)).
  rewrite gates_of_concat, sum_map_app. fold (gates_of first).
  split.
  - intros v1 v2 s2 -> Hsecond. fold (gates_of second) in Hsecond.
    destruct (sum_map_same (gate_cost fuel) (gates_of second)
                (gate_cost_same fuel) 0%Z s1
                (printed "Computing cost..." s1) eq_refl) as [Hr Hc].
    rewrite Hsecond in Hr, Hc. simpl in Hr, Hc.
    rewrite sum_map_shift.
    destruct (sum_map (gate_cost fuel) (gates_of second) 0%Z s1)
      as [[v|e] s'] eqn:Hsum; simpl in *; by simplify_eq.
  - by intros e ->.
Qed.

Lemma compute_cost_concat_witness :
  (compute_cost 2 (concat bell pair_then_swap) initial_state).1
  = Ret (11 + 4)%Z ∧
  (compute_cost 3 (concat (mkCircuit [on [0; 1; 2] broken_inside]) bell)
     initial_state).1
  = Err (Raise (AttributeError "data")).
Proof.
  set (s1 := (compute_cost 2 bell initial_state).2).
  set (s2 := (compute_cost 2 pair_then_swap s1).2).
  set (t1 := (compute_cost 3 (mkCircuit [on [0; 1; 2] broken_inside])
                initial_state).2).
  assert (H1 : compute_cost 2 bell initial_state = (Ret 11%Z, s1))
    by (vm_compute; reflexivity).
  assert (H2 : compute_cost 2 pair_then_swap s1 = (Ret 4%Z, s2))
    by (vm_compute; reflexivity).
  assert (H3 : compute_cost 3 (mkCircuit [on [0; 1; 2] broken_inside])
                 initial_state
               = (Err (Raise (AttributeError "data")), t1))
    by (vm_compute; reflexivity).
  split.
  - exact (proj1 (proj1 (compute_cost_concat 2 bell pair_then_swap
                           initial_state s1) _ _ _ H1 H2)).
  - by rewrite (proj2 (compute_cost_concat 3
                         (mkCircuit [on [0; 1; 2] broken_inside]) bell
                         initial_state t1) _ H3).
Defined.

Lemma existsb_of_map {A B} (p : B → bool) (f : A → B) (l : list A) :
  existsb p (map f l) = existsb (λ x, p (f x)) l.
Proof. induction l as [|x l IH]; simpl; [done|]. by rewrite IH. Qed.

(** X7. [has_cx] looks only at the classes of the operations of the
    instruction list, in no particular order: it is unchanged by reordering
    the list and by any change of the gates that keeps their classes, it is
    the disjunction over a concatenation, and it does not look inside
    definitions (a circuit whose operations are all plain [Gate] instances
    has no [cx], whatever they decompose into). *)
Theorem has_cx_structural `{Sdk obj} (circuit circuit' : QuantumCircuit obj) :
  (data circuit' ≡ₚ data circuit → has_cx circuit' = has_cx circuit) ∧
  (map class_of (operations circuit') = map class_of (operations circuit) →
   has_cx circuit' = has_cx circuit) ∧
  has_cx (concat circuit circuit') = has_cx circuit || has_cx circuit' ∧
  (Forall (λ g, class_of g = Gate) (operations circuit) →
   has_cx circuit = false).
Proof.
  split; [|split; [|split]].
  - intros Hperm.
    assert (Hops : operations circuit' ≡ₚ operations circuit)
      by (by apply Permutation_map).
    apply eq_true_iff_eq. rewrite !has_cx_Exists. by rewrite Hops.
  - unfold has_cx, isinstance. intros Hcls.
    rewrite <- (existsb_of_map (λ c, issubclass c CXGate) class_of
                  (operations circuit')).
    rewrite <- (existsb_of_map (λ c, issubclass c CXGate) class_of
                  (operations circuit)).
    by rewrite Hcls.
  - unfold has_cx, concat, operations. simpl.
    by rewrite map_app, existsb_app.
  - intros Hall. apply not_true_is_false. rewrite has_cx_Exists.
    intros Hex. apply Exists_exists in Hex as (g & Hin & Hg).
    eapply Forall_forall in Hall; [|exact Hin].
    unfold isinstance in Hg. by rewrite Hall in Hg.
Qed.

Lemma has_cx_structural_witness :
  has_cx (mkCircuit (reverse (data bell))) = has_cx bell ∧
  has_cx bell_renamed = has_cx bell ∧
  has_cx user_gates = false.
Proof.
  split; [|split].
  - apply (proj1 (has_cx_structural bell (mkCircuit (reverse (data bell))))).
    apply reverse_Permutation.
  - by apply (proj1 (proj2 (has_cx_structural bell bell_renamed))).
  - apply (proj2 (proj2 (proj2 (has_cx_structural user_gates bell)))).
    by repeat constructor.
Defined.

(** * Further properties of the job utilities *)

Section ProviderFacts.
Context `{Hcloud : Cloud world provider job}.

(** [get_provider], path by path. [w1] is the world in which the account is
    asked for a provider: warnings ignored, logger at [ERROR]. *)
Lemma get_provider_paths (w : world) :
  let saved := warnings_filters w in
  let w0 := warnings_simplefilter "ignore" w in
  let current_level := logger_level w0 in
  let w1 := logger_setLevel logging_ERROR w0 in
  get_provider w
  = match IBMQ_get_provider w1 with
    | (Ret p, w2) =>
        (Ret p, warnings_restore saved (logger_setLevel current_level w2))
    | (Err IBMQProviderError, w2) =>
        match IBMQ_load_account w2 with
        | (Ret p, w3) =>
            (Ret p, warnings_restore saved (logger_setLevel current_level w3))
        | (Err e, w3) => (Err e, warnings_restore saved w3)
        end
    | (Err e, w2) => (Err e, warnings_restore saved w2)
    end.
Proof.
  intros saved w0 current_level w1.
  unfold get_provider, with_catch_warnings, bind, modify, gets, try_except,
    ret, raise.
  fold saved w0. fold current_level. fold w1.
  destruct (IBMQ_get_provider w1) as [[p|e] w2]; [done|].
  destruct e; try done.
  by destruct (IBMQ_load_account w2) as [[p|e] w3].
Qed.

Lemma getitem_world (v : pyval) (key : string) (w : world) :
  (getitem v key w).2 = w.
Proof.
  unfold getitem. destruct v; try done.
  by destruct (list_find _ _) as [[? [? ?]]|].
Qed.

Lemma getitem_missing (v : pyval) (w : world) :
  (∀ items, v = PyDict items → "url" ∉ items.*1) →
  ∃ e, getitem v "url" w = (Err e, w).
Proof.
  intros Hmissing. unfold getitem. destruct v; try by eexists.
  destruct (list_find _ _) as [[i [k x]]|] eqn:Hfind; [|by eexists].
  apply list_find_Some in Hfind as (Hi & Hk & _). simpl in Hk. subst k.
  destruct (Hmissing items eq_refl).
  apply list_elem_of_fmap. exists ("url", x). split; [done|].
  by eapply list_elem_of_lookup_2.
Qed.

End ProviderFacts.

Lemma demo_cloud_laws : CloudLaws demo_cloud.
Proof.
  split; try done.
  intros w. simpl. by destruct (saved_credentials w).
Qed.

(** X8. [get_provider] leaves the warnings filters as it found them, whether
    it returns or raises: the [simplefilter('ignore')] it installs does not
    outlive the call. *)
Theorem get_provider_restores_warnings `{Hcloud : Cloud world provider job}
    (w : world) :
  CloudLaws Hcloud →
  warnings_filters (get_provider w).2 = warnings_filters w.
Proof.
  intros Hlaws. unfold get_provider, with_catch_warnings.
  destruct (bind _ _ _) as [r w']. simpl. apply filters_restore.
Qed.

Lemma get_provider_restores_warnings_witness :
  warnings_filters (get_provider (H := demo_cloud) offline).2 = [] ∧
  warnings_filters (get_provider (H := demo_cloud) online).2 = [].
Proof.
  split.
  - exact (get_provider_restores_warnings offline demo_cloud_laws).
  - exact (get_provider_restores_warnings online demo_cloud_laws).
Defined.

(** X9. [get_provider] restores the logger's level only on the way back
    with a provider. When it returns, the level of the logger
    'qiskit.providers.ibmq' is what it was before the call; when it raises,
    the logger is left at [logging.ERROR]. *)
Theorem get_provider_logger_level `{Hcloud : Cloud world provider job}
    (w : world) :
  CloudLaws Hcloud →
  (∀ p, (get_provider w).1 = Ret p →
        logger_level (get_provider w).2 = logger_level w) ∧
  (∀ e, (get_provider w).1 = Err e →
        logger_level (get_provider w).2 = logging_ERROR).
Proof.
  intros Hlaws. rewrite get_provider_paths.
  set (w1 := logger_setLevel logging_ERROR (warnings_simplefilter "ignore" w)).
  assert (Hw1 : logger_level w1 = logging_ERROR) by apply level_setLevel.
  pose proof (level_get_provider w1) as Hw2.
  destruct (IBMQ_get_provider w1) as [[p|e] w2]; simpl in *.
  - split; [|done]. intros _ _.
    by rewrite level_restore, level_setLevel, level_simplefilter.
  - pose proof (level_load_account w2) as Hw3.
    assert (Hraise : ∀ w',
              logger_level w' = logging_ERROR →
              logger_level
                (warnings_restore (warnings_filters w) w') = logging_ERROR).
    { intros w' Hw'. by rewrite level_restore. }
    destruct e; simpl;
      try (split; [done|]; intros _ _; apply Hraise; congruence).
    destruct (IBMQ_load_account w2) as [[p|e'] w3]; simpl in *.
    + split; [|done]. intros _ _.
      by rewrite level_restore, level_setLevel, level_simplefilter.
    + split; [done|]. intros _ _. apply Hraise. congruence.
Qed.

Lemma get_provider_logger_level_witness :
  logger_level (get_provider (H := demo_cloud) online).2
  = logger_level online ∧
  logger_level (get_provider (H := demo_cloud) offline).2 = 40%Z.
Proof.
  destruct (get_provider_logger_level online demo_cloud_laws) as [Hret _].
  destruct (get_provider_logger_level offline demo_cloud_laws) as [_ Hraise].
  split.
  - exact (Hret tt eq_refl).
  - exact (Hraise (OtherException "IBMQAccountCredentialsNotFound") eq_refl).
Defined.

(** X10. [get_provider] falls back on [IBMQ.load_account] exactly when
    [IBMQ.get_provider] raises [IBMQProviderError]. A provider that it
    returns comes from [IBMQ.get_provider], or from [IBMQ.load_account]
    after an [IBMQProviderError]; an exception that it raises is an
    exception of [IBMQ.get_provider] other than [IBMQProviderError], or an
    exception of [IBMQ.load_account] after an [IBMQProviderError]. *)
Theorem get_provider_fallback `{Hcloud : Cloud world provider job}
    (w : world) :
  let w1 :=
    logger_setLevel logging_ERROR (warnings_simplefilter "ignore" w) in
  (∀ p, (get_provider w).1 = Ret p →
        (IBMQ_get_provider w1).1 = Ret p ∨
        ((IBMQ_get_provider w1).1 = Err IBMQProviderError ∧
         (IBMQ_load_account (IBMQ_get_provider w1).2).1 = Ret p)) ∧
  (∀ e, (get_provider w).1 = Err e →
        ((IBMQ_get_provider w1).1 = Err e ∧ e ≠ IBMQProviderError) ∨
        ((IBMQ_get_provider w1).1 = Err IBMQProviderError ∧
         (IBMQ_load_account (IBMQ_get_provider w1).2).1 = Err e)).
Proof.
  intros w1. rewrite get_provider_paths. fold w1.
  destruct (IBMQ_get_provider w1) as [[p|e] w2]; simpl.
  - split; [|done]. intros p' [= <-]. by left.
  - destruct e; simpl;
      try (split; [done|]; intros e' [= <-]; by left).
    destruct (IBMQ_load_account w2) as [[p|e'] w3]; simpl.
    + split; [|done]. intros p' [= <-]. by right.
    + split; [done|]. intros e'' [= <-]. by right.
Qed.

Lemma get_provider_fallback_witness :
  (IBMQ_get_provider (Cloud := demo_cloud)
     (logger_setLevel logging_ERROR (warnings_simplefilter "ignore" online))).1
  = Err IBMQProviderError ∧
  (get_provider (H := demo_cloud) offline).1
  = Err (OtherException "IBMQAccountCredentialsNotFound").
Proof.
  destruct (get_provider_fallback (Hcloud := demo_cloud) online) as [Hret _].
  destruct (get_provider_fallback (Hcloud := demo_cloud) offline)
    as [_ Hraise].
  split.
  - destruct (Hret tt eq_refl) as [Hdirect|[Hfirst _]]; [|exact Hfirst].
    discriminate Hdirect.
  - destruct (Hraise (OtherException "IBMQAccountCredentialsNotFound")
                eq_refl) as [[_ _]|[_ Hload]]; reflexivity.
Defined.

(** X11. [get_job] returns [None] only when the retrieval raised. When
    [get_provider] returns a provider and its [backends.retrieve_job]
    returns a job, [get_job] returns that job; in every other case it
    returns [None]. *)
Theorem get_job_none_only_on_failure `{Hcloud : Cloud world provider job}
    (job_id : string) (w : world) :
  ((get_job job_id w).1 = Ret None ↔
   ∃ e, (get_job_try job_id w).1 = Err e) ∧
  (∀ j, (get_job job_id w).1 = Ret (Some j) ↔
        ∃ p w1, get_provider w = (Ret p, w1) ∧
                (backends_retrieve_job p job_id w1).1 = Ret j).
Proof.
  unfold get_job, try_except, get_job_try, bind, ret.
  destruct (get_provider w) as [[p|e] w1]; simpl.
  - destruct (backends_retrieve_job p job_id w1) as [[j|e] w2] eqn:Hjob;
      simpl; split.
    + split; [done|]. by intros [e [=]].
    + intros j'. split.
      * intros [= <-]. exists p, w1. by rewrite Hjob.
      * intros (p' & w1' & [= <- <-] & Hj). rewrite Hjob in Hj.
        by injection Hj as <-.
    + split; [by eexists|done].
    + intros j'. split; [done|].
      intros (p' & w1' & [= <- <-] & Hj). by rewrite Hjob in Hj.
  - split.
    + split; [by eexists|done].
    + intros j. split; [done|]. by intros (p' & w1' & [=] & _).
Qed.

(** X12. A response without a 'url' entry ends [get_job_urls] at once. When
    the download response is not a dict, or is a dict without the key
    'url', [get_job_urls] returns [(None, None)] in the world that the
    download request left: the result URL is not requested and the provider
    is not asked for again. *)
Theorem get_job_urls_missing_url `{Hcloud : Cloud world provider job}
    (job_id : string) (w w1 w2 : world) (p : provider) (response : pyval) :
  get_provider w = (Ret p, w1) →
  api_download_url p job_id w1 = (Ret response, w2) →
  (∀ items, response = PyDict items → "url" ∉ items.*1) →
  get_job_urls (JobId job_id) w = (Ret (PyTuple [PyNone; PyNone]), w2).
Proof.
  intros Hp Hd Hmissing.
  destruct (getitem_missing response w2 Hmissing) as [e He].
  unfold get_job_urls, try_except, get_job_urls_try, bind, ret.
  by rewrite Hp, Hd, He.
Qed.

Lemma get_job_urls_missing_url_witness :
  ∃ w2, get_job_urls (H := demo_cloud) (JobId "job-2") online
        = (Ret (PyTuple [PyNone; PyNone]), w2) ∧
        account_loaded w2 = true.
Proof.
  eexists. split.
  - apply (get_job_urls_missing_url (Hcloud := demo_cloud) "job-2"
             online (get_provider (H := demo_cloud) online).2 _ tt
             (PyDict [("id", PyStr "job-2")])); [reflexivity|reflexivity|].
    intros items [= <-]. simpl.
    apply not_elem_of_cons. split; [done|apply not_elem_of_nil].
  - reflexivity.
Defined.

Lemma get_job_none_only_on_failure_witness :
  (∃ e, (get_job_try (H := demo_cloud) "job-1" offline).1 = Err e) ∧
  (∃ p w1, get_provider (H := demo_cloud) online = (Ret p, w1) ∧
           (backends_retrieve_job p "job-1" w1).1 = Ret "job-1").
Proof.
  destruct (get_job_none_only_on_failure (Hcloud := demo_cloud) "job-1"
              offline) as [Hnone _].
  destruct (get_job_none_only_on_failure (Hcloud := demo_cloud) "job-1"
              online) as [_ Hsome].
  split.
  - apply (proj1 Hnone). reflexivity.
  - apply (proj1 (Hsome "job-1")). reflexivity.
Defined.

(** * Further properties of the decorator and of what it caches *)

(** X13. The decorator memoizes any function by key. An exception of a call
    is an exception that the decorated function raised on a miss, and then
    the decorator stores nothing: the final subscript [f.__cache[key]] never
    fails. On a miss on which the function returns [v], the decorator's own
    store writes [v] under the key and nothing else. A value that a call
    returns is in the cache under the key when the call ends, and as long as
    that entry is in the cache (in the state the call left, or any other
    state that holds it) a call whose arguments have that key returns it
    without running the function, whatever the function would compute on
    them. *)
Theorem cached_memoizes {A : Type} (key_function : A → string * Z)
    (f : A → M state stop Z) (args : A) (s : state) :
  (∀ e s', cached key_function f args s = (Err e, s') →
           cache s !! key_function args = None ∧ f args s = (Err e, s')) ∧
  (∀ v s1, cache s !! key_function args = None →
           f args s = (Ret v, s1) →
           cached key_function f args s
           = (Ret v, set_cache (<[key_function args := v]>) s1)) ∧
  (∀ v s', cached key_function f args s = (Ret v, s') →
           cache s' !! key_function args = Some v ∧
           ∀ args' s'',
             key_function args' = key_function args →
             cache s'' !! key_function args = Some v →
             cached key_function f args' s'' = (Ret v, s'')).
Proof.
  assert (Hcases :
    ∀ r s', cached key_function f args s = (r, s') →
      match r with
      | Ret v => cache s' !! key_function args = Some v
      | Err e => cache s !! key_function args = None ∧ f args s = (Err e, s')
      end).
  { intros r s'. destruct (cache s !! key_function args) as [w|] eqn:Hk.
    - rewrite (cached_hit _ _ _ _ _ Hk). by intros [= <- <-].
    - destruct (f args s) as [[v|e] s1] eqn:Hf.
      + rewrite (cached_miss_ret _ _ _ _ _ _ Hk Hf). intros [= <- <-].
        simpl. apply lookup_insert_eq.
      + rewrite (cached_miss_err _ _ _ _ _ _ Hk Hf). by intros [= <- <-]. }
  split; [|split].
  - intros e s' Hrun. exact (Hcases _ _ Hrun).
  - intros v s1 Hk Hf. by apply cached_miss_ret.
  - intros v s' Hrun. pose proof (Hcases _ _ Hrun) as Hk. split; [done|].
    intros args' s'' Hkey Hk''. apply cached_hit. by rewrite Hkey.
Qed.

Lemma cached_memoizes_witness :
  let s1 := (cached abs_key square 3%Z initial_state).2 in
  let s2 := (cached abs_key square 5%Z s1).2 in
  cached abs_key square 3%Z initial_state = (Ret 9%Z, s1) ∧
  cached abs_key square (-3)%Z s1 = (Ret 9%Z, s1) ∧
  cached abs_key square (-3)%Z s2 = (Ret 9%Z, s2) ∧
  cache initial_state !! abs_key 0%Z = None ∧
  square 0%Z initial_state
  = (Err (Raise (OtherException "ValueError")), initial_state).
Proof.
  intros s1 s2.
  assert (Hk : cache initial_state !! abs_key 3%Z = None) by reflexivity.
  assert (Hf : square 3%Z initial_state = (Ret 9%Z, tick initial_state))
    by reflexivity.
  assert (Hs1 : s1 = set_cache (<[abs_key 3%Z := 9%Z]>) (tick initial_state))
    by (vm_compute; reflexivity).
  assert (Hk2 : cache s2 !! abs_key 3%Z = Some 9%Z)
    by (vm_compute; reflexivity).
  assert (Hzero : cached abs_key square 0%Z initial_state
                  = (Err (Raise (OtherException "ValueError")), initial_state))
    by (vm_compute; reflexivity).
  destruct (cached_memoizes abs_key square 3%Z initial_state)
    as (_ & Hmiss & Hret).
  destruct (cached_memoizes abs_key square 0%Z initial_state) as (Herr & _).
  pose proof (Hmiss _ _ Hk Hf) as Hrun. rewrite <- Hs1 in Hrun.
  destruct (Hret _ _ Hrun) as [Hk1 Hlater].
  split; [exact Hrun|].
  split; [exact (Hlater (-3)%Z s1 eq_refl Hk1)|].
  split; [exact (Hlater (-3)%Z s2 eq_refl Hk2)|].
  exact (Herr _ _ Hzero).
Defined.

Section CachedCosts.
Context `{Sdk obj}.

(** Each call that returned left its value in the cache, and the later calls
    kept it. *)
Lemma map_calls_cached fuel (gs : list obj) :
  ∀ s vs s1,
    map_calls (gate_cost fuel) gs s = (Ret vs, s1) →
    Forall2 (λ g v, cache s1 !! gate_key g = Some v) gs vs.
Proof.
  induction gs as [|g gs IH]; intros s vs s1; simpl.
  - intros [= <- _]. constructor.
  - unfold bind.
    destruct (gate_cost fuel g s) as [[v|e] sa] eqn:Hg; [|done].
    destruct (map_calls (gate_cost fuel) gs sa) as [[ws|e] sb] eqn:Hgs;
      [|done].
    intros [= <- <-]. constructor; [|by eapply IH].
    apply (lookup_weaken (cache sa)); [by eapply gate_cost_ret_cached|].
    pose proof (map_calls_extends (gate_cost fuel) (gate_cost_extends fuel)
                  gs sa) as Hext.
    by rewrite Hgs in Hext.
Qed.

Lemma Forall2_cached_cost (c : cache_t) (gs : list obj) vs :
  Forall2 (λ g v, c !! gate_key g = Some v) gs vs →
  vs = map (cached_cost c) gs.
Proof.
  induction 1 as [|g v gs vs Hg _ IH]; simpl; [done|].
  unfold cached_cost at 1. by rewrite Hg, IH.
Qed.

End CachedCosts.

(** X14. A call of [gate_cost] that computes a cost caches the costs of the
    sub-gates as well: when the call misses the cache and returns, the cache
    it leaves has an entry for the key of every gate of the decomposition,
    so that later calls on them are hits. *)
Theorem gate_cost_caches_sub_gates `{Sdk obj} (fuel : nat) (gate : obj)
    (s s' : state) (v : Z) :
  gate_cost fuel gate s = (Ret v, s') →
  cache s !! gate_key gate = None →
  ∀ g', sub_gate g' gate → is_Some (cache s' !! gate_key g').
Proof.
  intros Hrun Hk g' (Hp & circuit & Hd & Hin).
  apply gate_cost_cases in Hrun as [(w & Hk' & _)|[_ Hrun]]; [congruence|].
  destruct Hrun as [(w & s1 & Hf & [= <-] & ->)|(e & _ & [=])].
  destruct fuel as [|n]; [done|].
  rewrite (gate_cost_f_composite _ _ _ _ Hp Hd), sum_map_map_calls in Hf.
  destruct (map_calls (gate_cost n) (operations circuit) (tick s))
    as [[vs|e] sa] eqn:Hcalls; [|done].
  injection Hf as _ <-.
  apply map_calls_cached in Hcalls.
  apply list_elem_of_lookup in Hin as [i Hi].
  destruct (Forall2_lookup_l _ _ _ _ _ Hcalls Hi) as (w & _ & Hw).
  simpl. destruct (decide (gate_key gate = gate_key g')) as [<-|Hne].
  - rewrite lookup_insert_eq. by eexists.
  - rewrite lookup_insert_ne by done. by eexists.
Qed.

Lemma gate_cost_caches_sub_gates_witness :
  is_Some (cache (gate_cost 2 u_u_cx initial_state).2 !! gate_key cx_gate).
Proof.
  apply (gate_cost_caches_sub_gates 2 u_u_cx initial_state
           (gate_cost 2 u_u_cx initial_state).2 12%Z).
  - vm_compute. reflexivity.
  - reflexivity.
  - split; [reflexivity|]. eexists. split; [reflexivity|].
    unfold operations. simpl. do 2 right. left.
Defined.

(** X15. The total of [compute_cost] can be read back from the cache. When
    [compute_cost] returns, the cache it leaves has an entry for the key of
    every gate entry of the circuit, and the total is the sum of these
    entries, one per gate entry. *)
Theorem compute_cost_total_in_cache `{Sdk obj} (fuel : nat)
    (circuit : QuantumCircuit obj) (s s1 : state) (total : Z) :
  compute_cost fuel circuit s = (Ret total, s1) →
  Forall (λ g, is_Some (cache s1 !! gate_key g)) (gates_of circuit) ∧
  total = sum_list (map (cached_cost (cache s1)) (gates_of circuit)).
Proof.
  rewrite compute_cost_map_calls.
  destruct (map_calls (gate_cost fuel) (gates_of circuit) _)
    as [[vs|e] sa] eqn:Hcalls; [|done].
  intros [= <- <-]. apply map_calls_cached in Hcalls. split.
  - apply Forall_forall. intros g Hin.
    apply list_elem_of_lookup in Hin as [i Hi].
    destruct (Forall2_lookup_l _ _ _ _ _ Hcalls Hi) as (w & _ & Hw).
    by eexists.
  - by rewrite (Forall2_cached_cost _ _ _ Hcalls).
Qed.

Lemma compute_cost_total_in_cache_witness :
  let s1 := (compute_cost 2 swap_then_pair initial_state).2 in
  Forall (λ g, is_Some (cache s1 !! gate_key g)) (gates_of swap_then_pair) ∧
  60%Z = sum_list (map (cached_cost (cache s1)) (gates_of swap_then_pair)).
Proof.
  intros s1.
  apply (compute_cost_total_in_cache 2 swap_then_pair initial_state s1 60%Z).
  vm_compute. reflexivity.
Defined.
